(** * EcoCor extractor: word frequencies per text segment

    Shallow embedding of [src/extractor/main.py] and the properties of its
    [process_text] endpoint.

    Modelling choices, all taken from the source:
    - a Python [dict] keeps its keys in insertion order and [process_text]
      iterates [word_to_segment_frq.items()], so a dict is an association
      list with unique keys in insertion order ([PyDict]);
    - a Python [set] of [str] has no specified iteration order (string hashes
      are salted per interpreter process), so [for word in intersect] runs
      over an enumeration [set_iter] of the set, a function of the set's
      elements of which only "it lists exactly the elements, once each" is
      known;
    - an unguarded subscript ([d[k]], [l[i]]) raises when the key or index
      is missing: such steps live in the [option] monad, [None] standing
      for the raised exception;
    - the network fetch [read_word_list] and the spaCy pipeline [nlp] are
      collaborators, taken as parameters. *)

From Stdlib Require Import Ascii.
From stdpp Require Import base option list strings gmap sets.

#[local] Set Warnings "-clear-no-such-hyp".

(** ** Insertion-ordered dictionaries *)

Module PyDict.
Section dict.
Context {K : Type} `{EqDecision K} {V : Type}.

(** [d[k]]; [None] is the [KeyError] *)
Fixpoint get (d : list (K * V)) (k : K) : option V :=
  match d with
  | [] => None
  | (k', v) :: d' => if decide (k' = k) then Some v else get d' k
  end.

(** [k in d] *)
Definition contains (d : list (K * V)) (k : K) : bool :=
  match get d k with Some _ => true | None => false end.

(** [d[k] = v]: an existing key keeps its position, a new key goes last *)
Fixpoint set (d : list (K * V)) (k : K) (v : V) : list (K * V) :=
  match d with
  | [] => [(k, v)]
  | (k', v') :: d' =>
      if decide (k' = k) then (k', v) :: d' else (k', v') :: set d' k v
  end.

(** [d.keys()], [d.values()], [d.items()], in insertion order *)
Definition keys (d : list (K * V)) : list K := d.*1.
Definition values (d : list (K * V)) : list V := d.*2.
Definition items (d : list (K * V)) : list (K * V) := d.
End dict.
End PyDict.

(** A [for] loop whose body may raise: the state is threaded through the
    iterations and the first exception aborts the loop. *)
Fixpoint for_each {A S : Type} (xs : list A) (body : S → A → option S) (s : S)
  : option S :=
  match xs with
  | [] => Some s
  | x :: xs' => s' ← body s x; for_each xs' body s'
  end.

(** [enumerate(xs)] *)
Definition enumerate {A : Type} (xs : list A) : list (nat * A) :=
  imap (λ i x, (i, x)) xs.

(** ** Data model (the pydantic classes) *)

Inductive Language := EN | DE.

Record Segment := mkSegment { text : string; segment_id : string }.

Record WordInfo := mkWordInfo {
  word : string;
  wikidata_ids : list string;
  category : string
}.

Record WordMetadata := mkWordMetadata {
  name : string;
  description : string;
  date : string
}.

(** [WordInfoFrequency(WordInfo)]: the three inherited fields are kept
    together in [word_info], as [**word_info] passes them. *)
Record WordInfoFrequency := mkWordInfoFrequency {
  word_info : WordInfo;
  segment_frequencies : list (string * nat);
  overall_frequency : nat
}.

Module WordInfoMeta.
Record t := mk { metadata : WordMetadata; word_list : list WordInfo }.
End WordInfoMeta.

Module WordInfoFrequencyMeta.
Record t := mk { metadata : WordMetadata; word_list : list WordInfoFrequency }.
End WordInfoFrequencyMeta.

Record UrlDescriptor := mkUrlDescriptor { url : string }.

Module SegmentWordListUrl.
Record t := mk {
    segments : list Segment;
    word_list : UrlDescriptor;
    language : Language
  }.
End SegmentWordListUrl.

(** ** [collections.Counter] *)

(** [c[x]]: a missing key counts 0 and raises nothing *)
Definition counter_get (c : list (string * nat)) (x : string) : nat :=
  default 0 (PyDict.get c x).

(** [Counter(xs)]: one increment per element, in order *)
Definition Counter (xs : list string) : list (string * nat) :=
  foldl (λ c x, PyDict.set c x (counter_get c x + 1)) [] xs.

(** ** [process_text] *)

Section extractor.
(** [read_word_list(url)]; [None] when the request or the parsing raises *)
Variable read_word_list : string → option WordInfoMeta.t.
(** [[token.lemma_ for token in doc]] for the [doc] that the pipeline of the
    given language yields for one text *)
Variable nlp : Language → string → list string.
(** iteration order of a [set] of strings *)
Variable set_iter : gset string → list string.

(** lines 116-119: one entry of the word list, grouped by surface word *)
Definition group_body (word_to_word_info : list (string * list WordInfo))
    (entry : WordInfo) : option (list (string * list WordInfo)) :=
  let d1 := if negb (PyDict.contains word_to_word_info (word entry))
            then PyDict.set word_to_word_info (word entry) []
            else word_to_word_info in
  l ← PyDict.get d1 (word entry);
  Some (PyDict.set d1 (word entry) (l ++ [entry])).

(** lines 141-146: record one word of segment [i] *)
Definition save_body (segments : list Segment) (i : nat)
    (counted : list (string * nat))
    (word_to_segment_frq : list (string * list (string * nat)))
    (w : string) : option (list (string * list (string * nat))) :=
  let d1 := if negb (PyDict.contains word_to_segment_frq w)
            then PyDict.set word_to_segment_frq w []
            else word_to_segment_frq in
  let c := counter_get counted w in
  inner ← PyDict.get d1 w;
  seg ← segments !! i;
  Some (PyDict.set d1 w (PyDict.set inner (segment_id seg) c)).

(** lines 133-146: one iteration of the loop over the annotated segments *)
Definition segment_body (segments : list Segment) (unique_words : gset string)
    (word_to_segment_frq : list (string * list (string * nat)))
    (ix : nat * list string) : option (list (string * list (string * nat))) :=
  let '(i, lemmatized_text) := ix in
  let vocabulary : gset string := list_to_set lemmatized_text in
  let counted := Counter lemmatized_text in
  let intersect := unique_words ∩ vocabulary in
  for_each (set_iter intersect) (save_body segments i counted)
           word_to_segment_frq.

(** lines 151-156: the dict comprehension; [segment_frq[seg_id] if seg_id in
    segment_frq else 0] is the match on the lookup *)
Definition zero_fill (all_segment_ids : list string)
    (segment_frq : list (string * nat)) : list (string * nat) :=
  foldl
    (λ acc seg_id,
       PyDict.set acc
         (if bool_decide (seg_id ∈ all_segment_ids) then seg_id else seg_id)
         (match PyDict.get segment_frq seg_id with
          | Some c => c
          | None => 0
          end))
    [] all_segment_ids.

(** lines 150-166: one iteration of the loop over the aggregated words *)
Definition result_body (word_to_word_info : list (string * list WordInfo))
    (all_segment_ids : list string)
    (word_info_frequency : list WordInfoFrequency)
    (item : string * list (string * nat)) : option (list WordInfoFrequency) :=
  let '(w, segment_frq) := item in
  let segment_frq_zero_filled := zero_fill all_segment_ids segment_frq in
  word_infos ← PyDict.get word_to_word_info w;
  let overall := sum_list (PyDict.values segment_frq) in
  Some (foldl
          (λ acc wi,
             acc ++ [mkWordInfoFrequency wi segment_frq_zero_filled overall])
          word_info_frequency word_infos).

Definition process_text (segments_word_list : SegmentWordListUrl.t)
  : option WordInfoFrequencyMeta.t :=
  let segments := SegmentWordListUrl.segments segments_word_list in
  word_info_meta ←
    read_word_list (url (SegmentWordListUrl.word_list segments_word_list));
  word_to_word_info ←
    for_each (WordInfoMeta.word_list word_info_meta) group_body [];
  let unique_words : gset string :=
    list_to_set (word <$> WordInfoMeta.word_list word_info_meta) in
  let docs :=
    nlp (SegmentWordListUrl.language segments_word_list) <$> (text <$> segments) in
  word_to_segment_frq ←
    for_each (enumerate docs) (segment_body segments unique_words) [];
  let all_segment_ids := segment_id <$> segments in
  word_info_frequency ←
    for_each (PyDict.items word_to_segment_frq)
             (result_body word_to_word_info all_segment_ids) [];
  Some (WordInfoFrequencyMeta.mk (WordInfoMeta.metadata word_info_meta)
                                 word_info_frequency).
End extractor.

(** ** Reference notions used to state the properties *)

(** number of occurrences of [w] among the tokens, by string equality *)
Definition occurrences (w : string) (tokens : list string) : nat :=
  length (filter (λ x, x = w) tokens).

(** keys in order of first appearance *)
Definition add_key {K : Type} `{EqDecision K} (acc : list K) (k : K) : list K :=
  if decide (k ∈ acc) then acc else acc ++ [k].

Definition first_seen {K : Type} `{EqDecision K} (ks : list K) : list K :=
  foldl add_key [] ks.

(** the word-list entries of surface word [w], in word-list order *)
Definition entries_of (wl : list WordInfo) (w : string) : list WordInfo :=
  filter (λ e, word e = w) wl.

(** [word_to_word_info[entry.word].append(entry)], creating the list when
    missing *)
Definition group_put (d : list (string * list WordInfo)) (e : WordInfo)
  : list (string * list WordInfo) :=
  PyDict.set d (word e) (default [] (PyDict.get d (word e)) ++ [e]).

(** [word_to_segment_frq[w][sid] = c], creating [word_to_segment_frq[w]]
    when missing *)
Definition put (d : list (string * list (string * nat)))
    (w sid : string) (c : nat) : list (string * list (string * nat)) :=
  PyDict.set d w (PyDict.set (default [] (PyDict.get d w)) sid c).

(** the words a segment is matched on, in the order the loop visits them *)
Definition matched (set_iter : gset string → list string)
    (unique_words : gset string) (tokens : list string) : list string :=
  set_iter (unique_words ∩ list_to_set tokens).

(** the aggregation loop as a fold over (segment id, lemma tokens) *)
Definition aggregate (set_iter : gset string → list string)
    (unique_words : gset string) (segs : list (string * list string))
    (d : list (string * list (string * nat)))
  : list (string * list (string * nat)) :=
  foldl (λ d '(sid, tokens),
           foldl (λ d w, put d w sid (occurrences w tokens)) d
                 (matched set_iter unique_words tokens))
        d segs.

(** the words in the order the aggregation loop visits them *)
Definition visited (set_iter : gset string → list string)
    (unique_words : gset string) (segs : list (string * list string))
  : list string :=
  segs ≫= (λ st, matched set_iter unique_words st.2).

(** the per-segment counts of one word, segment by segment *)
Definition sparse (unique_words : gset string) (w : string)
    (segs : list (string * list string)) (sf : list (string * nat))
  : list (string * nat) :=
  foldl (λ sf '(sid, tokens),
           if decide (w ∈ unique_words ∧ w ∈ tokens)
           then PyDict.set sf sid (occurrences w tokens) else sf)
        sf segs.

(** the records emitted for one aggregated word *)
Definition records_of (wl : list WordInfo) (ids : list string)
    (item : string * list (string * nat)) : list WordInfoFrequency :=
  (λ wi, mkWordInfoFrequency wi (zero_fill ids item.2)
                             (sum_list (PyDict.values item.2)))
  <$> entries_of wl item.1.

(** segments paired with their lemma tokens *)
Definition lemmatized (nlp : Language → string → list string)
    (req : SegmentWordListUrl.t) : list (string * list string) :=
  (λ s, (segment_id s, nlp (SegmentWordListUrl.language req) (text s)))
  <$> SegmentWordListUrl.segments req.

Definition vocabulary_of (wim : WordInfoMeta.t) : gset string :=
  list_to_set (word <$> WordInfoMeta.word_list wim).

Definition all_ids (req : SegmentWordListUrl.t) : list string :=
  segment_id <$> SegmentWordListUrl.segments req.

(** the response in closed form *)
Definition report (set_iter : gset string → list string)
    (nlp : Language → string → list string)
    (wim : WordInfoMeta.t) (req : SegmentWordListUrl.t)
  : WordInfoFrequencyMeta.t :=
  WordInfoFrequencyMeta.mk (WordInfoMeta.metadata wim)
    (aggregate set_iter (vocabulary_of wim) (lemmatized nlp req) []
     ≫= records_of (WordInfoMeta.word_list wim) (all_ids req)).

(** the records emitted for word [w], from the closed form of its counts *)
Definition records_for (wim : WordInfoMeta.t) (segs : list (string * list string))
    (w : string) : list WordInfoFrequency :=
  records_of (WordInfoMeta.word_list wim) segs.*1
             (w, sparse (vocabulary_of wim) w segs []).

(** occurrences of [w] summed over all segments *)
Definition total_occurrences (segs : list (string * list string)) (w : string)
  : nat :=
  sum_list_with (λ st, occurrences w st.2) segs.

(** position of the first token equal to [w] *)
Fixpoint first_token (w : string) (tokens : list string) : option nat :=
  match tokens with
  | [] => None
  | x :: tokens' =>
      if decide (x = w) then Some 0 else S <$> first_token w tokens'
  end.

(** position of the first segment whose tokens contain [w] *)
Fixpoint first_segment (w : string) (segs : list (string * list string))
  : option nat :=
  match segs with
  | [] => None
  | (_, tokens) :: segs' =>
      if decide (w ∈ tokens) then Some 0 else S <$> first_segment w segs'
  end.

(** ** Example inputs *)

(** a whitespace tokenizer standing in for the lemmatizer *)
Fixpoint split_ws (acc : string) (s : string) : list string :=
  match s with
  | EmptyString => if decide (acc = EmptyString) then [] else [acc]
  | String c s' =>
      if decide (c = " "%char)
      then (if decide (acc = EmptyString) then [] else [acc])
           ++ split_ws EmptyString s'
      else split_ws (acc +:+ String c EmptyString) s'
  end.

Definition ex_nlp : Language → string → list string := λ _, split_ws EmptyString.

Definition ex_meta : WordMetadata := mkWordMetadata "trees" "d" "2020-01-01".

Definition ex_wim : WordInfoMeta.t :=
  WordInfoMeta.mk ex_meta
    [mkWordInfo "oak" ["Q1"] "plant"; mkWordInfo "pine" ["Q2"] "plant";
     mkWordInfo "birch" ["Q3"] "plant"; mkWordInfo "oak" ["Q4"] "ship"].

Definition ex_read : string → option WordInfoMeta.t := λ _, Some ex_wim.

Definition ex_req : SegmentWordListUrl.t :=
  SegmentWordListUrl.mk
    [mkSegment "the oak fell" "s1"; mkSegment "birch and oak grow" "s2"]
    (mkUrlDescriptor "http://w") EN.

(** one segment in which two listed words are seen for the first time *)
Definition ex_req1 : SegmentWordListUrl.t :=
  SegmentWordListUrl.mk [mkSegment "oak birch oak" "s1"]
    (mkUrlDescriptor "http://w") EN.


(** the same two words, the other way round in the text *)
Definition ex_req2 : SegmentWordListUrl.t :=
  SegmentWordListUrl.mk [mkSegment "birch oak" "s1"]
    (mkUrlDescriptor "http://w") EN.

(** no segment at all *)
Definition ex_req0 : SegmentWordListUrl.t :=
  SegmentWordListUrl.mk [] (mkUrlDescriptor "http://w") EN.

(** three segments sharing one id *)
Definition ex_req_dup : SegmentWordListUrl.t :=
  SegmentWordListUrl.mk
    [mkSegment "oak oak" "s1"; mkSegment "oak" "s1"; mkSegment "birch" "s1"]
    (mkUrlDescriptor "http://w") EN.



(** the set iterated back to front *)
Definition rev_elements (s : gset string) : list string := reverse (elements s).

(** ** The order and determinism laws in their strong reading *)

(** all lemma tokens of the request, in scanning order *)
Definition token_stream (segs : list (string * list string)) : list string :=
  segs ≫= snd.

(** first-seen order token by token: a word first met earlier in the token
    stream has all its records earlier in the output *)
Definition token_order_law (out : list WordInfoFrequency)
    (segs : list (string * list string)) : Prop :=
  ∀ a b ru rv p q,
    out !! a = Some ru → out !! b = Some rv →
    first_token (word (word_info ru)) (token_stream segs) = Some p →
    first_token (word (word_info rv)) (token_stream segs) = Some q →
    p < q → a < b.

(** two runs, each with its own iteration order of the sets, agree *)
Definition runs_agree (read_word_list : string → option WordInfoMeta.t)
    (nlp : Language → string → list string)
    (req : SegmentWordListUrl.t) : Prop :=
  ∀ set_iter1 set_iter2 : gset string → list string,
    (∀ s, set_iter1 s ≡ₚ elements s) → (∀ s, set_iter2 s ≡ₚ elements s) →
    process_text read_word_list nlp set_iter1 req
    = process_text read_word_list nlp set_iter2 req.

(** * Proofs *)

(** ** Dictionaries *)

Section dict_facts.
Context {K : Type} `{EqDecision K} {V : Type}.
Implicit Types (d : list (K * V)) (k : K) (v : V).

Lemma get_set_eq d k v : PyDict.get (PyDict.set d k v) k = Some v.
Proof.
  induction d as [|[k' v'] d IH]; simpl.
  - by rewrite decide_True.
  - destruct (decide (k' = k)) as [->|Hne]; simpl.
    + by rewrite decide_True.
    + by rewrite decide_False.
Qed.

Lemma get_set_ne d k k' v :
  k ≠ k' → PyDict.get (PyDict.set d k v) k' = PyDict.get d k'.
Proof.
  intros Hne. induction d as [|[k0 v0] d IH]; simpl.
  - by rewrite decide_False.
  - destruct (decide (k0 = k)) as [->|Hk]; simpl.
    + by rewrite !(decide_False (P := k = k')).
    + by rewrite IH.
Qed.

Lemma get_None d k : PyDict.get d k = None ↔ k ∉ PyDict.keys d.
Proof.
  unfold PyDict.keys. induction d as [|[k' v'] d IH]; simpl.
  - split; [intros _; apply not_elem_of_nil | done].
  - rewrite not_elem_of_cons. destruct (decide (k' = k)) as [->|Hne].
    + split; [done | by intros [? _]].
    + rewrite IH. split; [by intros ?; split; [intros ->|] | by intros [_ ?]].
Qed.

Lemma get_Some_keys d k : is_Some (PyDict.get d k) ↔ k ∈ PyDict.keys d.
Proof.
  rewrite <-not_eq_None_Some, get_None.
  destruct (decide (k ∈ PyDict.keys d)); naive_solver.
Qed.

Lemma contains_keys d k : PyDict.contains d k = bool_decide (k ∈ PyDict.keys d).
Proof.
  unfold PyDict.contains. destruct (PyDict.get d k) eqn:E.
  - symmetry. apply bool_decide_eq_true. apply get_Some_keys. by rewrite E.
  - symmetry. apply bool_decide_eq_false. by apply get_None.
Qed.

Lemma get_elem_of d k v : PyDict.get d k = Some v → (k, v) ∈ d.
Proof.
  induction d as [|[k' v'] d IH]; simpl; [done|].
  destruct (decide (k' = k)) as [->|Hne].
  - intros [= ->]. apply elem_of_cons; by left.
  - intros. apply elem_of_cons; right; auto.
Qed.

Lemma elem_of_get d k v :
  NoDup (PyDict.keys d) → (k, v) ∈ d → PyDict.get d k = Some v.
Proof.
  unfold PyDict.keys. induction d as [|[k' v'] d IH]; simpl.
  - intros _ Hin. by apply elem_of_nil in Hin.
  - rewrite NoDup_cons. intros [Hnin Hnd] Hin.
    apply elem_of_cons in Hin as [[= -> ->]|Hin].
    + by rewrite decide_True.
    + rewrite decide_False; [by apply IH|].
      intros ->. apply Hnin. apply list_elem_of_fmap. by exists (k, v).
Qed.

Lemma keys_set d k v : PyDict.keys (PyDict.set d k v) = add_key (PyDict.keys d) k.
Proof.
  unfold PyDict.keys, add_key. induction d as [|[k' v'] d IH].
  - done.
  - cbn [PyDict.set]. destruct (decide (k' = k)) as [->|Hne].
    + rewrite !fmap_cons. cbn [fst].
      rewrite decide_True; [done | apply elem_of_cons; by left].
    + rewrite !fmap_cons, IH. cbn [fst].
      destruct (decide (k ∈ d.*1)) as [Hin|Hnin].
      * rewrite decide_True; [done | apply elem_of_cons; by right].
      * rewrite decide_False; [done|].
        rewrite elem_of_cons. intros [?|?]; congruence.
Qed.

Lemma set_absent d k v : k ∉ PyDict.keys d → PyDict.set d k v = d ++ [(k, v)].
Proof.
  unfold PyDict.keys. induction d as [|[k' v'] d IH]; simpl; [done|].
  rewrite not_elem_of_cons. intros [Hne Hnin].
  rewrite decide_False by done. by rewrite IH.
Qed.

Lemma set_set d k v v' : PyDict.set (PyDict.set d k v) k v' = PyDict.set d k v'.
Proof.
  induction d as [|[k0 v0] d IH]; simpl.
  - by rewrite decide_True.
  - destruct (decide (k0 = k)) as [->|Hne]; simpl.
    + by rewrite decide_True.
    + by rewrite decide_False, IH.
Qed.
End dict_facts.

(** ** First-appearance order *)

Section first_seen_facts.
Context {K : Type} `{EqDecision K}.
Implicit Types (acc ks : list K) (k : K).

Lemma add_key_elem_of acc k x : x ∈ add_key acc k ↔ x ∈ acc ∨ x = k.
Proof.
  unfold add_key. destruct (decide (k ∈ acc)).
  - naive_solver.
  - rewrite elem_of_app, list_elem_of_singleton. done.
Qed.

Lemma add_key_NoDup acc k : NoDup acc → NoDup (add_key acc k).
Proof.
  unfold add_key. intros Hnd. destruct (decide (k ∈ acc)); [done|].
  apply NoDup_app. split_and!; [done | | apply NoDup_singleton].
  intros x Hx ->%list_elem_of_singleton. done.
Qed.

Lemma add_keys_elem_of acc ks x : x ∈ foldl add_key acc ks ↔ x ∈ acc ∨ x ∈ ks.
Proof.
  revert acc. induction ks as [|k ks IH]; intros acc; simpl.
  - rewrite elem_of_nil. naive_solver.
  - rewrite IH, add_key_elem_of, elem_of_cons. naive_solver.
Qed.

Lemma add_keys_NoDup acc ks : NoDup acc → NoDup (foldl add_key acc ks).
Proof.
  revert acc. induction ks as [|k ks IH]; intros acc Hnd; simpl; [done|].
  apply IH, add_key_NoDup, Hnd.
Qed.

(** keys are only ever appended *)
Lemma add_keys_prefix acc ks :
  ∃ rest, foldl add_key acc ks = acc ++ rest ∧ ∀ x, x ∈ rest → x ∈ ks.
Proof.
  revert acc. induction ks as [|k ks IH]; intros acc; simpl.
  - exists []. by rewrite app_nil_r.
  - destruct (IH (add_key acc k)) as (rest & -> & Hrest).
    unfold add_key. destruct (decide (k ∈ acc)).
    + exists rest. split; [done|]. intros x Hx. apply elem_of_cons; right; auto.
    + exists (k :: rest). split; [by rewrite <-app_assoc|].
      intros x [->|Hx]%elem_of_cons; apply elem_of_cons; auto.
Qed.

Lemma first_seen_elem_of ks x : x ∈ first_seen ks ↔ x ∈ ks.
Proof.
  unfold first_seen. rewrite add_keys_elem_of, elem_of_nil. naive_solver.
Qed.

Lemma first_seen_NoDup ks : NoDup (first_seen ks).
Proof. apply add_keys_NoDup, NoDup_nil_2. Qed.

Lemma first_seen_app ks1 ks2 :
  ∃ rest, first_seen (ks1 ++ ks2) = first_seen ks1 ++ rest
          ∧ ∀ x, x ∈ rest → x ∈ ks2.
Proof. unfold first_seen. rewrite foldl_app. apply add_keys_prefix. Qed.

Lemma first_seen_NoDup_id ks : NoDup ks → first_seen ks = ks.
Proof.
  unfold first_seen. intros Hnd.
  enough (∀ acc, NoDup (acc ++ ks) → foldl add_key acc ks = acc ++ ks) as Hgen
    by apply (Hgen []), Hnd.
  clear Hnd. induction ks as [|k ks IH]; intros acc Hnd; simpl.
  - by rewrite app_nil_r.
  - unfold add_key at 2. rewrite decide_False.
    + rewrite IH; rewrite <-app_assoc; done.
    + apply NoDup_app in Hnd as (_ & Hdisj & _).
      intros Hin. apply (Hdisj _ Hin). apply elem_of_cons; by left.
Qed.
End first_seen_facts.

(** ** Loops and counters *)

Lemma for_each_app {A S} (xs ys : list A) (body : S → A → option S) s :
  for_each (xs ++ ys) body s = s' ← for_each xs body s; for_each ys body s'.
Proof.
  revert s. induction xs as [|x xs IH]; intros s; simpl; [done|].
  destruct (body s x) as [s'|]; simpl; [apply IH | done].
Qed.

(** a loop whose body never raises is a fold *)
Lemma for_each_foldl {A S} (xs : list A) (body : S → A → option S) f s :
  (∀ s x, x ∈ xs → body s x = Some (f s x)) →
  for_each xs body s = Some (foldl f s xs).
Proof.
  revert s. induction xs as [|x xs IH]; intros s Hbody; simpl; [done|].
  rewrite Hbody by (apply elem_of_cons; by left). simpl.
  apply IH. intros s' y Hy. apply Hbody. apply elem_of_cons; by right.
Qed.

Lemma occurrences_cons w x tokens :
  occurrences w (x :: tokens)
  = (if decide (x = w) then 1 else 0) + occurrences w tokens.
Proof.
  unfold occurrences. rewrite filter_cons. by destruct (decide (x = w)).
Qed.

Lemma occurrences_pos w tokens : w ∈ tokens ↔ 0 < occurrences w tokens.
Proof.
  induction tokens as [|x tokens IH].
  - split; [by intros ?%elem_of_nil | unfold occurrences; simpl; lia].
  - rewrite occurrences_cons, elem_of_cons.
    destruct (decide (x = w)) as [->|Hne].
    + split; [lia | by left].
    + rewrite IH. simpl. split; [intros [?|?]; [congruence | done] | by right].
Qed.

Lemma Counter_occurrences tokens w :
  counter_get (Counter tokens) w = occurrences w tokens.
Proof.
  unfold Counter.
  enough (∀ c, counter_get
                 (foldl (λ c x, PyDict.set c x (counter_get c x + 1)) c tokens) w
               = counter_get c w + occurrences w tokens) as Hgen
    by (rewrite Hgen; done).
  induction tokens as [|x tokens IH]; intros c.
  - unfold occurrences. simpl. lia.
  - cbn [foldl]. rewrite IH, occurrences_cons.
    unfold counter_get at 1. destruct (decide (x = w)) as [->|Hne].
    + rewrite get_set_eq. simpl. lia.
    + rewrite get_set_ne by done. fold (counter_get c w). lia.
Qed.

(** ** The three loops of [process_text] never raise *)

Section loops.
Variable set_iter : gset string → list string.

Lemma group_body_eq d e : group_body d e = Some (group_put d e).
Proof.
  unfold group_body, group_put, PyDict.contains.
  destruct (PyDict.get d (word e)) as [l|] eqn:E; simpl.
  - by rewrite E.
  - rewrite get_set_eq. simpl. by rewrite set_set.
Qed.

Lemma put_eq segments i seg counted d w :
  segments !! i = Some seg →
  save_body segments i counted d w
  = Some (put d w (segment_id seg) (counter_get counted w)).
Proof.
  intros Hseg. unfold save_body, put, PyDict.contains.
  destruct (PyDict.get d w) as [inner|] eqn:E; simpl.
  - by rewrite E, Hseg.
  - rewrite get_set_eq, Hseg. simpl. by rewrite set_set.
Qed.

Lemma segment_body_eq segments unique_words i seg tokens d :
  segments !! i = Some seg →
  segment_body set_iter segments unique_words d (i, tokens)
  = Some (foldl (λ d w, put d w (segment_id seg) (occurrences w tokens)) d
                (matched set_iter unique_words tokens)).
Proof.
  intros Hseg. unfold segment_body, matched.
  apply for_each_foldl. intros d' w _.
  by rewrite (put_eq _ _ seg), Counter_occurrences.
Qed.

Lemma aggregate_cons unique_words sid tokens segs d :
  aggregate set_iter unique_words ((sid, tokens) :: segs) d
  = aggregate set_iter unique_words segs
      (foldl (λ d w, put d w sid (occurrences w tokens)) d
             (matched set_iter unique_words tokens)).
Proof. done. Qed.

Lemma segments_loop_eq_gen segments unique_words (f : Segment → list string)
    pre rest d :
  segments = pre ++ rest →
  for_each (imap (λ i x, (length pre + i, x)) (f <$> rest))
           (segment_body set_iter segments unique_words) d
  = Some (aggregate set_iter unique_words
            ((λ s, (segment_id s, f s)) <$> rest) d).
Proof.
  revert pre d. induction rest as [|s rest IH]; intros pre d Hsegs; [done|].
  rewrite !fmap_cons. cbn [imap for_each].
  rewrite (segment_body_eq _ _ _ s).
  - rewrite aggregate_cons, <-(IH (pre ++ [s])) by (by rewrite <-app_assoc).
    cbn [mbind option_bind]. f_equal. apply imap_ext. intros i x _. simpl.
    rewrite length_app. simpl. f_equal. lia.
  - rewrite Hsegs, Nat.add_0_r. by apply list_lookup_middle.
Qed.

Lemma segments_loop_eq segments unique_words (f : Segment → list string) :
  for_each (enumerate (f <$> segments))
           (segment_body set_iter segments unique_words) []
  = Some (aggregate set_iter unique_words
            ((λ s, (segment_id s, f s)) <$> segments) []).
Proof. by apply (segments_loop_eq_gen segments unique_words f []). Qed.
End loops.

(** ** The aggregated table *)

Section aggregate_facts.
Variable set_iter : gset string → list string.
Hypothesis set_iter_perm : ∀ s, set_iter s ≡ₚ elements s.
Implicit Types (d : list (string * list (string * nat))) (w sid : string).
Implicit Types (segs : list (string * list string)) (uw : gset string).

Lemma matched_elem_of uw tokens w :
  w ∈ matched set_iter uw tokens ↔ w ∈ uw ∧ w ∈ tokens.
Proof.
  unfold matched. rewrite set_iter_perm, elem_of_elements, elem_of_intersection.
  by rewrite elem_of_list_to_set.
Qed.

Lemma matched_NoDup uw tokens : NoDup (matched set_iter uw tokens).
Proof. unfold matched. rewrite set_iter_perm. apply NoDup_elements. Qed.

Lemma visited_elem_of uw segs w :
  w ∈ visited set_iter uw segs ↔ w ∈ uw ∧ ∃ st, st ∈ segs ∧ w ∈ st.2.
Proof.
  unfold visited. rewrite list_elem_of_bind. split.
  - intros (st & Hw & Hst). apply matched_elem_of in Hw as [? ?]. eauto.
  - intros (Huw & st & Hst & Hw). exists st. by rewrite matched_elem_of.
Qed.

Lemma keys_put d w sid c : PyDict.keys (put d w sid c) = add_key (PyDict.keys d) w.
Proof. apply keys_set. Qed.

Lemma get_put_eq d w sid c :
  PyDict.get (put d w sid c) w
  = Some (PyDict.set (default [] (PyDict.get d w)) sid c).
Proof. apply get_set_eq. Qed.

Lemma get_put_ne d w w' sid c :
  w ≠ w' → PyDict.get (put d w sid c) w' = PyDict.get d w'.
Proof. apply get_set_ne. Qed.

Lemma keys_put_all d sid (cnt : string → nat) ws :
  PyDict.keys (foldl (λ d w, put d w sid (cnt w)) d ws)
  = foldl add_key (PyDict.keys d) ws.
Proof.
  revert d. induction ws as [|w ws IH]; intros d; [done|].
  cbn [foldl]. by rewrite IH, keys_put.
Qed.

Lemma keys_aggregate uw segs d :
  PyDict.keys (aggregate set_iter uw segs d)
  = foldl add_key (PyDict.keys d) (visited set_iter uw segs).
Proof.
  revert d. induction segs as [|[sid tokens] segs IH]; intros d; [done|].
  rewrite aggregate_cons, IH, keys_put_all.
  unfold visited. cbn [mbind list_bind]. by rewrite foldl_app.
Qed.

Lemma get_put_all d sid (cnt : string → nat) ws w :
  default [] (PyDict.get (foldl (λ d w, put d w sid (cnt w)) d ws) w)
  = if decide (w ∈ ws)
    then PyDict.set (default [] (PyDict.get d w)) sid (cnt w)
    else default [] (PyDict.get d w).
Proof.
  revert d. induction ws as [|w0 ws IH]; intros d.
  - cbn [foldl].
    destruct (decide (w ∈ [])) as [Hin|]; [by apply elem_of_nil in Hin | done].
  - cbn [foldl]. rewrite IH. destruct (decide (w0 = w)) as [->|Hne].
    + rewrite get_put_eq. simpl. rewrite set_set.
      rewrite (decide_True (P := w ∈ w :: ws)) by (apply elem_of_cons; by left).
      by destruct (decide (w ∈ ws)).
    + rewrite get_put_ne by done.
      destruct (decide (w ∈ ws)) as [Hin|Hnin].
      * rewrite decide_True; [done | apply elem_of_cons; by right].
      * rewrite decide_False; [done|].
        rewrite elem_of_cons. intros [?|?]; congruence.
Qed.

(** the sub-dict of a word does not depend on the iteration order *)
Lemma get_aggregate uw segs d w :
  default [] (PyDict.get (aggregate set_iter uw segs d) w)
  = sparse uw w segs (default [] (PyDict.get d w)).
Proof.
  revert d. induction segs as [|[sid tokens] segs IH]; intros d; [done|].
  rewrite aggregate_cons, IH, get_put_all. unfold sparse. cbn [foldl].
  f_equal. destruct (decide (w ∈ matched set_iter uw tokens)) as [Hin|Hnin].
  - rewrite decide_True; [done | by apply matched_elem_of].
  - rewrite decide_False; [done | by rewrite <-matched_elem_of].
Qed.

Lemma aggregate_keys_NoDup uw segs : NoDup (PyDict.keys (aggregate set_iter uw segs [])).
Proof. rewrite keys_aggregate. apply first_seen_NoDup. Qed.

Lemma aggregate_keys_elem_of uw segs w :
  w ∈ PyDict.keys (aggregate set_iter uw segs [])
  ↔ w ∈ uw ∧ ∃ st, st ∈ segs ∧ w ∈ st.2.
Proof.
  rewrite keys_aggregate. change (foldl add_key (PyDict.keys []) ?l) with (first_seen l).
  by rewrite first_seen_elem_of, visited_elem_of.
Qed.

Lemma aggregate_item uw segs w sf :
  (w, sf) ∈ aggregate set_iter uw segs [] →
  sf = sparse uw w segs [] ∧ w ∈ uw ∧ ∃ st, st ∈ segs ∧ w ∈ st.2.
Proof.
  intros Hin. split.
  - pose proof (get_aggregate uw segs [] w) as Hget.
    by rewrite (elem_of_get _ _ _ (aggregate_keys_NoDup uw segs) Hin) in Hget.
  - apply aggregate_keys_elem_of. unfold PyDict.keys.
    apply list_elem_of_fmap. by exists (w, sf).
Qed.

(** the table lists each aggregated word with its sub-dict, in order of
    first visit *)
Lemma aggregate_eq uw segs :
  aggregate set_iter uw segs []
  = (λ w, (w, sparse uw w segs [])) <$> first_seen (visited set_iter uw segs).
Proof.
  pose proof (keys_aggregate uw segs []) as Hk.
  change (foldl add_key (PyDict.keys []) ?l) with (first_seen l) in Hk.
  rewrite <-Hk. unfold PyDict.keys. rewrite <-list_fmap_compose.
  rewrite <-(list_fmap_id (aggregate set_iter uw segs [])) at 1.
  apply list_fmap_ext. intros i [w sf] Hi. simpl.
  apply list_elem_of_lookup_2, aggregate_item in Hi as [-> _]. done.
Qed.
End aggregate_facts.

(** ** The per-word counts *)

Section sparse_facts.
Implicit Types (sf : list (string * nat)) (w sid : string).
Implicit Types (segs : list (string * list string)) (uw : gset string).

Lemma sparse_cons uw w sid tokens segs sf :
  sparse uw w ((sid, tokens) :: segs) sf
  = sparse uw w segs
      (if decide (w ∈ uw ∧ w ∈ tokens)
       then PyDict.set sf sid (occurrences w tokens) else sf).
Proof. done. Qed.

Lemma elem_of_set {K V} `{EqDecision K} (d : list (K * V)) k v k' v' :
  (k, v) ∈ PyDict.set d k' v' → (k, v) ∈ d ∨ (k = k' ∧ v = v').
Proof.
  induction d as [|[k0 v0] d IH]; simpl.
  - intros [= -> ->]%list_elem_of_singleton. by right.
  - destruct (decide (k0 = k')) as [->|Hne].
    + intros [[= -> ->]|Hin]%elem_of_cons; [by right|].
      left. apply elem_of_cons; by right.
    + intros [[= -> ->]|Hin]%elem_of_cons; [left; apply elem_of_cons; by left|].
      destruct (IH Hin) as [?|?]; [left; apply elem_of_cons; by right | by right].
Qed.

Lemma sparse_keys_elem_of uw w segs sf k :
  k ∈ PyDict.keys (sparse uw w segs sf)
  ↔ k ∈ PyDict.keys sf ∨ (w ∈ uw ∧ ∃ tokens, (k, tokens) ∈ segs ∧ w ∈ tokens).
Proof.
  revert sf. induction segs as [|[sid tokens] segs IH]; intros sf.
  - simpl. split; [by left|]. intros [?|(_ & ? & []%elem_of_nil & _)]. done.
  - rewrite sparse_cons, IH. destruct (decide (w ∈ uw ∧ w ∈ tokens)) as [[Hu Ht]|Hn].
    + rewrite keys_set, add_key_elem_of. split.
      * intros [[?| ->]|(? & toks & ? & ?)]; [by left | |].
        -- right. split; [done|]. exists tokens. split; [apply elem_of_cons; by left | done].
        -- right. split; [done|]. exists toks. split; [apply elem_of_cons; by right | done].
      * intros [?|(? & toks & [[= -> ->]|?]%elem_of_cons & ?)]; [by left; left | by left; right |].
        right. split; [done|]. by exists toks.
    + split.
      * intros [?|(? & toks & ? & ?)]; [by left|].
        right. split; [done|]. exists toks. split; [apply elem_of_cons; by right | done].
      * intros [?|(? & toks & [[= -> ->]|?]%elem_of_cons & ?)]; [by left | by destruct Hn |].
        right. split; [done|]. by exists toks.
Qed.

Lemma sparse_keys_NoDup uw w segs sf :
  NoDup (PyDict.keys sf) → NoDup (PyDict.keys (sparse uw w segs sf)).
Proof.
  revert sf. induction segs as [|[sid tokens] segs IH]; intros sf Hnd; [done|].
  rewrite sparse_cons. apply IH. case_decide; [|done].
  rewrite keys_set. by apply add_key_NoDup.
Qed.

(** every recorded count is a positive number of occurrences *)
Lemma sparse_values_pos uw w segs sf k c :
  (k, c) ∈ sparse uw w segs sf → (k, c) ∈ sf ∨ 0 < c.
Proof.
  revert sf. induction segs as [|[sid tokens] segs IH]; intros sf; [by left|].
  rewrite sparse_cons. intros [Hin|?]%IH; [|by right].
  case_decide as Hc; [|by left].
  apply elem_of_set in Hin as [?|[-> ->]]; [by left|].
  right. apply occurrences_pos, Hc.
Qed.

Lemma sparse_unlisted uw w segs sf : w ∉ uw → sparse uw w segs sf = sf.
Proof.
  intros Hw. revert sf. induction segs as [|[sid tokens] segs IH]; intros sf; [done|].
  rewrite sparse_cons, IH. rewrite decide_False; [done | by intros [? _]].
Qed.

Lemma sparse_get_other uw w segs sf sid :
  sid ∉ segs.*1 → PyDict.get (sparse uw w segs sf) sid = PyDict.get sf sid.
Proof.
  revert sf. induction segs as [|[sid0 tokens] segs IH]; intros sf; [done|].
  rewrite fmap_cons, not_elem_of_cons. cbn [fst]. intros [Hne Hnin].
  rewrite sparse_cons, IH by done. case_decide; [|done].
  by rewrite get_set_ne.
Qed.

(** with unique segment ids, the sub-dict holds exactly the occurrence
    counts of the segments that contain the word *)
Lemma sparse_get uw w segs sf sid tokens :
  NoDup segs.*1 → (sid, tokens) ∈ segs → sid ∉ PyDict.keys sf →
  PyDict.get (sparse uw w segs sf) sid
  = if decide (w ∈ uw ∧ w ∈ tokens) then Some (occurrences w tokens) else None.
Proof.
  revert sf. induction segs as [|[sid0 tokens0] segs IH]; intros sf.
  - by intros _ ?%elem_of_nil.
  - rewrite fmap_cons, NoDup_cons. cbn [fst]. intros [Hnin Hnd] Hin Hsf.
    rewrite sparse_cons. apply elem_of_cons in Hin as [[= -> ->]|Hin].
    + rewrite sparse_get_other by done. case_decide.
      * apply get_set_eq.
      * by apply get_None.
    + assert (sid0 ≠ sid) as Hne.
      { intros ->. apply Hnin. apply list_elem_of_fmap. by exists (sid, tokens). }
      apply IH; [done..|]. destruct (decide (w ∈ uw ∧ w ∈ tokens0)); [|done].
      rewrite keys_set, add_key_elem_of. intros [?|?]; congruence.
Qed.

Lemma sparse_sum uw w segs sf :
  w ∈ uw → NoDup (PyDict.keys sf ++ segs.*1) →
  sum_list (PyDict.values (sparse uw w segs sf))
  = sum_list (PyDict.values sf) + sum_list_with (λ st, occurrences w st.2) segs.
Proof.
  intros Hw. revert sf. induction segs as [|[sid tokens] segs IH]; intros sf Hnd.
  - simpl. lia.
  - rewrite fmap_cons in Hnd. cbn [fst] in Hnd.
    assert ((sid ∉ PyDict.keys sf) ∧ NoDup (PyDict.keys sf ++ segs.*1)) as [Hsid Hnd'].
    { rewrite <-Permutation_middle in Hnd. apply NoDup_cons in Hnd as [Hn ?].
      split; [|done]. intros ?. apply Hn, elem_of_app. by left. }
    rewrite sparse_cons. cbn [sum_list_with snd].
    destruct (decide (w ∈ uw ∧ w ∈ tokens)) as [[_ Ht]|Hn].
    + rewrite IH.
      * rewrite set_absent by done. unfold PyDict.values.
        rewrite fmap_app, sum_list_with_app. simpl. lia.
      * rewrite keys_set. unfold add_key. rewrite decide_False by done.
        by rewrite <-app_assoc.
    + rewrite IH by done.
      assert (occurrences w tokens = 0) as ->; [|lia].
      destruct (occurrences w tokens) eqn:E; [done|].
      destruct Hn. split; [done|]. apply occurrences_pos. lia.
Qed.
End sparse_facts.

(** ** Zero filling *)

Section zero_fill_facts.
Implicit Types (sf : list (string * nat)) (ids : list string).

Lemma set_fmap_self {K V} `{EqDecision K} (g : K → V) (acc : list K) k :
  PyDict.set ((λ k, (k, g k)) <$> acc) k (g k)
  = (λ k, (k, g k)) <$> add_key acc k.
Proof.
  unfold add_key. induction acc as [|k0 acc IH].
  - destruct (decide (k ∈ [])) as [Hin|]; [by apply elem_of_nil in Hin | done].
  - rewrite fmap_cons. cbn [PyDict.set]. destruct (decide (k0 = k)) as [->|Hne].
    + rewrite decide_True; [done | apply elem_of_cons; by left].
    + rewrite IH. destruct (decide (k ∈ acc)) as [Hin|Hnin].
      * rewrite decide_True; [done | apply elem_of_cons; by right].
      * rewrite decide_False; [done|].
        rewrite elem_of_cons. intros [?|?]; congruence.
Qed.

Lemma get_fmap_self {K V} `{EqDecision K} (g : K → V) (l : list K) k :
  PyDict.get ((λ k, (k, g k)) <$> l) k
  = if decide (k ∈ l) then Some (g k) else None.
Proof.
  induction l as [|k0 l IH].
  - destruct (decide (k ∈ [])) as [Hin|]; [by apply elem_of_nil in Hin | done].
  - rewrite fmap_cons. cbn [PyDict.get]. destruct (decide (k0 = k)) as [->|Hne].
    + rewrite decide_True; [done | apply elem_of_cons; by left].
    + rewrite IH. destruct (decide (k ∈ l)) as [Hin|Hnin].
      * rewrite decide_True; [done | apply elem_of_cons; by right].
      * rewrite decide_False; [done|].
        rewrite elem_of_cons. intros [?|?]; congruence.
Qed.

(** the comprehension lists the distinct ids in order, each with its
    recorded count or 0 *)
Lemma zero_fill_eq ids sf :
  zero_fill ids sf
  = (λ k, (k, default 0 (PyDict.get sf k))) <$> first_seen ids.
Proof.
  unfold zero_fill, first_seen.
  enough (∀ (all l acc : list string),
    foldl (λ acc seg_id,
             PyDict.set acc
               (if bool_decide (seg_id ∈ all) then seg_id else seg_id)
               (match PyDict.get sf seg_id with Some c => c | None => 0 end))
          ((λ k, (k, default 0 (PyDict.get sf k))) <$> acc) l
    = (λ k, (k, default 0 (PyDict.get sf k))) <$> foldl add_key acc l) as Hgen
    by apply (Hgen ids ids []).
  intros all l. induction l as [|k l IH]; intros acc; [done|].
  cbn [foldl]. rewrite <-IH. f_equal.
  rewrite <-set_fmap_self. by destruct (bool_decide (k ∈ all)).
Qed.

Lemma zero_fill_keys ids sf : PyDict.keys (zero_fill ids sf) = first_seen ids.
Proof.
  rewrite zero_fill_eq. unfold PyDict.keys.
  rewrite <-list_fmap_compose. apply list_fmap_id.
Qed.

Lemma zero_fill_get ids sf k :
  PyDict.get (zero_fill ids sf) k
  = if decide (k ∈ ids) then Some (default 0 (PyDict.get sf k)) else None.
Proof.
  rewrite zero_fill_eq, get_fmap_self.
  destruct (decide (k ∈ ids)) as [Hin|Hnin].
  - rewrite decide_True; [done | by apply first_seen_elem_of].
  - rewrite decide_False; [done | by rewrite first_seen_elem_of].
Qed.

Lemma sum_lookup_nil (l : list string) :
  sum_list ((λ k, default 0 (PyDict.get (@nil (string * nat)) k)) <$> l) = 0.
Proof. induction l as [|k l IH]; [done|]. rewrite fmap_cons. simpl. apply IH. Qed.

(** looking every key up once adds up to the sum of the values *)
Lemma sum_lookup sf (l : list string) :
  NoDup l → NoDup (PyDict.keys sf) → (∀ k, k ∈ PyDict.keys sf → k ∈ l) →
  sum_list ((λ k, default 0 (PyDict.get sf k)) <$> l)
  = sum_list (PyDict.values sf).
Proof.
  revert l. induction sf as [|[k0 v0] sf IH]; intros l Hl Hsf Hsub.
  - apply sum_lookup_nil.
  - unfold PyDict.keys, PyDict.values in *. rewrite fmap_cons in Hsf, Hsub.
    rewrite fmap_cons. cbn [fst snd] in *.
    apply NoDup_cons in Hsf as [Hk0 Hsf].
    destruct (proj1 (elem_of_Permutation l k0)) as [l' Hperm].
    { apply Hsub. apply elem_of_cons; by left. }
    rewrite Hperm in Hl. apply NoDup_cons in Hl as [Hk0' Hl'].
    rewrite Hperm, fmap_cons. cbn [sum_list_with PyDict.get].
    rewrite decide_True by done. cbn [default from_option id].
    f_equal. rewrite <-(IH l'); [|done..|].
    + f_equal. apply list_fmap_ext. intros i k Hk.
      rewrite decide_False; [done|].
      intros ->. by apply list_elem_of_lookup_2 in Hk.
    + intros k Hk. assert (k ∈ l) as Hkl by (apply Hsub, elem_of_cons; by right).
      rewrite Hperm in Hkl. apply elem_of_cons in Hkl as [->|?]; done.
Qed.

(** summing the zero-filled dict gives the sum of the recorded counts *)
Lemma zero_fill_sum ids sf :
  NoDup (PyDict.keys sf) → (∀ k, k ∈ PyDict.keys sf → k ∈ ids) →
  sum_list (PyDict.values (zero_fill ids sf)) = sum_list (PyDict.values sf).
Proof.
  intros Hnd Hsub. rewrite zero_fill_eq. unfold PyDict.values at 1.
  rewrite <-list_fmap_compose. apply sum_lookup; [apply first_seen_NoDup | done |].
  intros k Hk. by apply first_seen_elem_of, Hsub.
Qed.
End zero_fill_facts.

(** ** Grouping the word list and building the records *)

Section result_facts.
Implicit Types (g : list (string * list WordInfo)) (wl : list WordInfo).

Lemma entries_of_cons wl e w :
  entries_of (e :: wl) w
  = (if decide (word e = w) then [e] else []) ++ entries_of wl w.
Proof. unfold entries_of. rewrite filter_cons. by destruct (decide (word e = w)). Qed.

Lemma group_get wl g w :
  default [] (PyDict.get (foldl group_put g wl) w)
  = default [] (PyDict.get g w) ++ entries_of wl w.
Proof.
  revert g. induction wl as [|e wl IH]; intros g.
  - unfold entries_of. simpl. by rewrite app_nil_r.
  - cbn [foldl]. rewrite IH, entries_of_cons. unfold group_put.
    destruct (decide (word e = w)) as [<-|Hne].
    + rewrite get_set_eq. simpl. by rewrite <-app_assoc.
    + by rewrite get_set_ne.
Qed.

Lemma group_keys wl g w :
  w ∈ PyDict.keys (foldl group_put g wl) ↔ w ∈ PyDict.keys g ∨ w ∈ word <$> wl.
Proof.
  revert g. induction wl as [|e wl IH]; intros g.
  - simpl. split; [by left | by intros [?|?%elem_of_nil]].
  - cbn [foldl]. rewrite IH. unfold group_put.
    rewrite keys_set, add_key_elem_of, fmap_cons, elem_of_cons. tauto.
Qed.

(** every listed word is a key of the grouping, bound to its entries in
    word-list order *)
Lemma group_lookup wl w :
  w ∈ word <$> wl → PyDict.get (foldl group_put [] wl) w = Some (entries_of wl w).
Proof.
  intros Hw. pose proof (group_get wl [] w) as Hget.
  destruct (PyDict.get (foldl group_put [] wl) w) as [l|] eqn:E;
    [by simpl in Hget; subst l|].
  apply get_None in E. destruct E. apply group_keys. by right.
Qed.

Lemma group_loop_eq wl : for_each wl group_body [] = Some (foldl group_put [] wl).
Proof. apply for_each_foldl. intros. apply group_body_eq. Qed.

Lemma collect_records (zf : list (string * nat)) ov out (wis : list WordInfo) :
  foldl (λ acc wi, acc ++ [mkWordInfoFrequency wi zf ov]) out wis
  = out ++ ((λ wi, mkWordInfoFrequency wi zf ov) <$> wis).
Proof.
  revert out. induction wis as [|wi wis IH]; intros out; simpl.
  - by rewrite app_nil_r.
  - by rewrite IH, <-app_assoc.
Qed.

Lemma result_body_eq g wl ids out w sf :
  PyDict.get g w = Some (entries_of wl w) →
  result_body g ids out (w, sf) = Some (out ++ records_of wl ids (w, sf)).
Proof.
  intros Hg. unfold result_body, records_of. rewrite Hg. simpl.
  by rewrite collect_records.
Qed.

Lemma result_loop_eq g wl ids (tbl : list (string * list (string * nat))) out :
  (∀ w sf, (w, sf) ∈ tbl → PyDict.get g w = Some (entries_of wl w)) →
  for_each tbl (result_body g ids) out = Some (out ++ (tbl ≫= records_of wl ids)).
Proof.
  revert out. induction tbl as [|[w sf] tbl IH]; intros out Hg.
  - simpl. by rewrite app_nil_r.
  - cbn [for_each].
    rewrite (result_body_eq g wl) by (apply (Hg w sf), elem_of_cons; by left).
    cbn [mbind option_bind]. rewrite IH.
    + by rewrite <-app_assoc.
    + intros w' sf' Hin. apply (Hg w' sf'). apply elem_of_cons; by right.
Qed.
End result_facts.

(** ** [process_text] in closed form *)

Section process_text_facts.
Variable read_word_list : string → option WordInfoMeta.t.
Variable nlp : Language → string → list string.
Variable set_iter : gset string → list string.
Hypothesis set_iter_perm : ∀ s, set_iter s ≡ₚ elements s.

(** once the word list is fetched, no step of [process_text] raises, and the
    response is [report] *)
Lemma process_text_eq req wim :
  read_word_list (url (SegmentWordListUrl.word_list req)) = Some wim →
  process_text read_word_list nlp set_iter req
  = Some (report set_iter nlp wim req).
Proof.
  intros Hread. unfold process_text. rewrite Hread. cbn [mbind option_bind].
  rewrite group_loop_eq. cbn [mbind option_bind].
  rewrite <-list_fmap_compose, segments_loop_eq. cbn [mbind option_bind].
  unfold PyDict.items.
  rewrite (result_loop_eq _ (WordInfoMeta.word_list wim)).
  - done.
  - intros w sf Hin. apply group_lookup.
    apply (aggregate_item set_iter set_iter_perm) in Hin as (_ & Hw & _).
    by apply elem_of_list_to_set in Hw.
Qed.
End process_text_facts.

(** ** The emitted records *)

Section record_facts.
Variable nlp : Language → string → list string.
Variable set_iter : gset string → list string.
Hypothesis set_iter_perm : ∀ s, set_iter s ≡ₚ elements s.
Implicit Types (req : SegmentWordListUrl.t) (wim : WordInfoMeta.t).
Implicit Types (r : WordInfoFrequency) (w : string).

Lemma lemmatized_ids req : (lemmatized nlp req).*1 = all_ids req.
Proof.
  unfold lemmatized, all_ids. rewrite <-list_fmap_compose. done.
Qed.

Lemma report_word_list req wim :
  WordInfoFrequencyMeta.word_list (report set_iter nlp wim req)
  = first_seen (visited set_iter (vocabulary_of wim) (lemmatized nlp req))
    ≫= records_for wim (lemmatized nlp req).
Proof.
  unfold report. cbn [WordInfoFrequencyMeta.word_list].
  rewrite (aggregate_eq set_iter set_iter_perm), list_fmap_bind.
  unfold records_for. by rewrite lemmatized_ids.
Qed.

Lemma total_occurrences_pos segs w :
  0 < total_occurrences segs w ↔ ∃ st, st ∈ segs ∧ w ∈ st.2.
Proof.
  unfold total_occurrences. induction segs as [|st segs IH].
  - simpl. split; [lia | by intros (? & ?%elem_of_nil & _)].
  - cbn [sum_list_with]. split.
    + intros Hpos. destruct (decide (0 < occurrences w st.2)) as [Hst|Hst].
      * exists st. split; [apply elem_of_cons; by left | by apply occurrences_pos].
      * destruct (proj1 IH) as (st' & ? & ?); [lia|].
        exists st'. split; [apply elem_of_cons; by right | done].
    + intros (st' & [->|Hin]%elem_of_cons & Hw).
      * apply occurrences_pos in Hw. lia.
      * assert (0 < sum_list_with (λ st, occurrences w st.2) segs); [|lia].
        apply IH. by exists st'.
Qed.

Lemma records_for_elem_of wim segs w r :
  r ∈ records_for wim segs w
  ↔ word_info r ∈ WordInfoMeta.word_list wim
    ∧ word (word_info r) = w
    ∧ segment_frequencies r = zero_fill segs.*1 (sparse (vocabulary_of wim) w segs [])
    ∧ overall_frequency r
      = sum_list (PyDict.values (sparse (vocabulary_of wim) w segs [])).
Proof.
  unfold records_for, records_of, entries_of. cbn [fst snd].
  rewrite list_elem_of_fmap. split.
  - intros (wi & -> & [? ?]%list_elem_of_filter). done.
  - intros (Hwi & Hw & Hsf & Hov). exists (word_info r). split.
    + destruct r. simpl in *. by subst.
    + by apply list_elem_of_filter.
Qed.

(** which records the response holds *)
Lemma record_elem_of req wim r :
  let segs := lemmatized nlp req in
  let w := word (word_info r) in
  r ∈ WordInfoFrequencyMeta.word_list (report set_iter nlp wim req)
  ↔ word_info r ∈ WordInfoMeta.word_list wim
    ∧ 0 < total_occurrences segs w
    ∧ segment_frequencies r
      = zero_fill (all_ids req) (sparse (vocabulary_of wim) w segs [])
    ∧ overall_frequency r
      = sum_list (PyDict.values (sparse (vocabulary_of wim) w segs [])).
Proof.
  intros segs w. rewrite report_word_list, list_elem_of_bind.
  rewrite total_occurrences_pos. fold segs. rewrite <-(lemmatized_ids req). fold segs.
  split.
  - intros (w' & Hr & Hw'). apply records_for_elem_of in Hr as (Hwi & <- & Hsf & Hov).
    apply first_seen_elem_of, (visited_elem_of set_iter set_iter_perm) in Hw' as [_ Hst].
    done.
  - intros (Hwi & Hst & Hsf & Hov). exists w. split.
    + by apply records_for_elem_of.
    + apply first_seen_elem_of, (visited_elem_of set_iter set_iter_perm).
      split; [|done]. apply elem_of_list_to_set, list_elem_of_fmap. by exists (word_info r).
Qed.
End record_facts.

(** ** Records of one word within the output *)

Section grouping_facts.
Context {A : Type}.

Lemma filter_all (P : A → Prop) `{∀ x, Decision (P x)} (l : list A) :
  (∀ x, x ∈ l → P x) → filter P l = l.
Proof.
  induction l as [|x l IH]; intros HP; [done|].
  rewrite filter_cons_True, IH; [done | |].
  - intros y Hy. apply HP, elem_of_cons; by right.
  - apply HP, elem_of_cons; by left.
Qed.

Lemma filter_none (P : A → Prop) `{∀ x, Decision (P x)} (l : list A) :
  (∀ x, x ∈ l → ¬ P x) → filter P l = [].
Proof.
  induction l as [|x l IH]; intros HP; [done|].
  rewrite filter_cons_False, IH; [done | |].
  - intros y Hy. apply HP, elem_of_cons; by right.
  - apply HP, elem_of_cons; by left.
Qed.

(** in a list grouped by distinct keys, the elements of key [w] are the
    group of [w] *)
Lemma filter_bind_key (key : A → string) (g : string → list A)
    (ks : list string) (w : string) :
  NoDup ks → (∀ k x, x ∈ g k → key x = k) →
  filter (λ x, key x = w) (ks ≫= g) = if decide (w ∈ ks) then g w else [].
Proof.
  intros Hnd Hkey. induction ks as [|k ks IH].
  - destruct (decide (w ∈ [])) as [Hin|]; [by apply elem_of_nil in Hin | done].
  - apply NoDup_cons in Hnd as [Hk Hnd]. rewrite bind_cons, filter_app, IH by done.
    destruct (decide (k = w)) as [->|Hne].
    + rewrite (decide_True (P := w ∈ w :: ks)) by (apply elem_of_cons; by left).
      rewrite decide_False by done. rewrite app_nil_r.
      apply filter_all. intros x Hx. by apply (Hkey w).
    + rewrite filter_none by (intros x Hx%Hkey; congruence).
      destruct (decide (w ∈ ks)) as [Hin|Hnin].
      * rewrite decide_True; [done | apply elem_of_cons; by right].
      * rewrite decide_False; [done|].
        rewrite elem_of_cons. intros [?|?]; congruence.
Qed.

(** in [l1 ++ l2], an element that is not in [l2] comes before one that is
    not in [l1] *)
Lemma lookup_app_before (l1 l2 : list A) (a b : nat) (x y : A) :
  (l1 ++ l2) !! a = Some x → (l1 ++ l2) !! b = Some y →
  x ∉ l2 → y ∉ l1 → a < b.
Proof.
  intros Ha Hb Hx Hy.
  destruct (decide (a < length l1)) as [Hlt|Hge].
  - destruct (decide (b < length l1)) as [Hb1|?]; [|lia].
    rewrite lookup_app_l in Hb by done. by apply list_elem_of_lookup_2 in Hb.
  - rewrite lookup_app_r in Ha by lia. by apply list_elem_of_lookup_2 in Ha.
Qed.
End grouping_facts.

Section first_segment_facts.
Implicit Types (segs : list (string * list string)) (w : string).

Lemma first_segment_Some w segs i :
  first_segment w segs = Some i →
  (∃ st, segs !! i = Some st ∧ w ∈ st.2)
  ∧ ∀ st, st ∈ take i segs → w ∉ st.2.
Proof.
  revert i. induction segs as [|[sid tokens] segs IH]; intros i; [done|].
  cbn [first_segment]. destruct (decide (w ∈ tokens)) as [Hin|Hnin].
  - intros [= <-]. split; [by exists (sid, tokens) | by intros st ?%elem_of_nil].
  - destruct (first_segment w segs) as [i'|] eqn:E; [|done].
    intros [= <-]. destruct (IH i' eq_refl) as [Hat Hbefore]. split; [done|].
    intros st [->|Hst]%elem_of_cons; [done | by apply Hbefore].
Qed.
End first_segment_facts.

(** * Properties of [process_text] *)

Section properties.
Variable read_word_list : string → option WordInfoMeta.t.
Variable nlp : Language → string → list string.
Variable set_iter : gset string → list string.
Hypothesis set_iter_perm : ∀ s, set_iter s ≡ₚ elements s.
Implicit Types (req : SegmentWordListUrl.t) (wim : WordInfoMeta.t).
Implicit Types (r : WordInfoFrequency) (w : string).

Lemma listed_word wim r :
  word_info r ∈ WordInfoMeta.word_list wim → word (word_info r) ∈ vocabulary_of wim.
Proof.
  intros Hin. apply elem_of_list_to_set, list_elem_of_fmap. by exists (word_info r).
Qed.

Lemma segment_lemmatized req s :
  s ∈ SegmentWordListUrl.segments req →
  (segment_id s, nlp (SegmentWordListUrl.language req) (text s))
  ∈ lemmatized nlp req.
Proof. intros Hs. apply list_elem_of_fmap. by exists s. Qed.

Lemma sparse_keys_ids uw w segs k :
  k ∈ PyDict.keys (sparse uw w segs []) → k ∈ segs.*1.
Proof.
  intros [[]%elem_of_nil|(_ & tokens & Hin & _)]%sparse_keys_elem_of.
  apply list_elem_of_fmap. by exists (k, tokens).
Qed.

(** C1. Zero-fill completeness: with unique segment ids, every emitted
    record has exactly the input segment ids as the keys of its
    [segment_frequencies], in input order, each bound to the number of
    occurrences of the record's word in that segment, hence to 0 for a
    segment in which the word does not occur. *)
Theorem zero_fill_completeness req wim :
  read_word_list (url (SegmentWordListUrl.word_list req)) = Some wim →
  NoDup (all_ids req) →
  ∃ out, process_text read_word_list nlp set_iter req = Some out ∧
    ∀ r, r ∈ WordInfoFrequencyMeta.word_list out →
      PyDict.keys (segment_frequencies r) = all_ids req
      ∧ (∀ k, k ∈ PyDict.keys (segment_frequencies r) ↔ k ∈ all_ids req)
      ∧ (∀ s, s ∈ SegmentWordListUrl.segments req →
           PyDict.get (segment_frequencies r) (segment_id s)
           = Some (occurrences (word (word_info r))
                     (nlp (SegmentWordListUrl.language req) (text s))))
      ∧ (∀ s, s ∈ SegmentWordListUrl.segments req →
           word (word_info r) ∉ nlp (SegmentWordListUrl.language req) (text s) →
           PyDict.get (segment_frequencies r) (segment_id s) = Some 0).
Proof.
  intros Hread Hids. eexists. split; [by apply process_text_eq|].
  intros r (Hwi & Hocc & Hsf & Hov)%(record_elem_of nlp set_iter set_iter_perm).
  assert (PyDict.keys (segment_frequencies r) = all_ids req) as Hkeys.
  { rewrite Hsf, zero_fill_keys. by apply first_seen_NoDup_id. }
  assert (∀ s, s ∈ SegmentWordListUrl.segments req →
           PyDict.get (segment_frequencies r) (segment_id s)
           = Some (occurrences (word (word_info r))
                     (nlp (SegmentWordListUrl.language req) (text s)))) as Hget.
  { intros s Hs. rewrite Hsf, zero_fill_get.
    rewrite decide_True by (apply list_elem_of_fmap; by exists s).
    f_equal. erewrite sparse_get;
      [| by rewrite lemmatized_ids | by apply segment_lemmatized | apply not_elem_of_nil].
    case_decide as Hc; [done|]. simpl.
    destruct (occurrences _ _) eqn:E; [done|]. destruct Hc.
    split; [by apply listed_word | apply occurrences_pos; lia]. }
  split_and!; [done | by rewrite Hkeys | done |].
  intros s Hs Hw. rewrite Hget by done. f_equal.
  destruct (occurrences _ _) eqn:E; [done|]. destruct Hw. apply occurrences_pos. lia.
Qed.

(** C2. Conservation: the [overall_frequency] of every emitted record is the
    sum of the values of its zero-filled [segment_frequencies]; it is the
    sum of the counts recorded for the word by the aggregation loop; and
    with unique segment ids it is the total number of occurrences of the
    word over all segments. *)
Theorem conservation req wim :
  read_word_list (url (SegmentWordListUrl.word_list req)) = Some wim →
  ∃ out, process_text read_word_list nlp set_iter req = Some out ∧
    ∀ r, r ∈ WordInfoFrequencyMeta.word_list out →
      overall_frequency r = sum_list (PyDict.values (segment_frequencies r))
      ∧ (∃ word_to_segment_frq segment_frq,
           for_each
             (enumerate (nlp (SegmentWordListUrl.language req)
                           <$> (text <$> SegmentWordListUrl.segments req)))
             (segment_body set_iter (SegmentWordListUrl.segments req)
                           (vocabulary_of wim)) []
           = Some word_to_segment_frq
           ∧ PyDict.get word_to_segment_frq (word (word_info r)) = Some segment_frq
           ∧ segment_frequencies r = zero_fill (all_ids req) segment_frq
           ∧ overall_frequency r = sum_list (PyDict.values segment_frq))
      ∧ (NoDup (all_ids req) →
         overall_frequency r
         = total_occurrences (lemmatized nlp req) (word (word_info r))).
Proof.
  intros Hread. eexists. split; [by apply process_text_eq|].
  intros r (Hwi & Hocc & Hsf & Hov)%(record_elem_of nlp set_iter set_iter_perm).
  split_and!.
  - rewrite Hov, Hsf. symmetry. apply zero_fill_sum.
    + apply sparse_keys_NoDup, NoDup_nil_2.
    + intros k Hk%sparse_keys_ids. by rewrite lemmatized_ids in Hk.
  - eexists _, _. split_and!; [| | exact Hsf | exact Hov].
    + rewrite <-list_fmap_compose. apply segments_loop_eq.
    + rewrite (aggregate_eq set_iter set_iter_perm), get_fmap_self.
      apply decide_True, first_seen_elem_of, (visited_elem_of set_iter set_iter_perm).
      split; [by apply listed_word | by apply total_occurrences_pos].
  - intros Hids. rewrite Hov, sparse_sum; [done | by apply listed_word |].
    by rewrite lemmatized_ids.
Qed.

(** C3. Omission law: a word with no occurrence in any segment has no record
    in the output; every word-list entry whose word occurs in some segment
    has a record; every record has a positive [overall_frequency] and a
    positive count for some segment. *)
Theorem omission_law req wim :
  read_word_list (url (SegmentWordListUrl.word_list req)) = Some wim →
  ∃ out, process_text read_word_list nlp set_iter req = Some out ∧
    (∀ w, total_occurrences (lemmatized nlp req) w = 0 →
       ∀ r, r ∈ WordInfoFrequencyMeta.word_list out → word (word_info r) ≠ w)
    ∧ (∀ e, e ∈ WordInfoMeta.word_list wim →
         0 < total_occurrences (lemmatized nlp req) (word e) →
         ∃ r, r ∈ WordInfoFrequencyMeta.word_list out ∧ word_info r = e)
    ∧ (∀ r, r ∈ WordInfoFrequencyMeta.word_list out →
         word_info r ∈ WordInfoMeta.word_list wim
         ∧ 0 < overall_frequency r
         ∧ ∃ sid c, (sid, c) ∈ segment_frequencies r ∧ 0 < c).
Proof.
  intros Hread. eexists. split; [by apply process_text_eq|]. split_and!.
  - intros w Hw r (_ & Hocc & _)%(record_elem_of nlp set_iter set_iter_perm) Heq.
    rewrite Heq in Hocc. lia.
  - intros e He Hocc.
    exists (mkWordInfoFrequency e
              (zero_fill (all_ids req)
                 (sparse (vocabulary_of wim) (word e) (lemmatized nlp req) []))
              (sum_list (PyDict.values
                 (sparse (vocabulary_of wim) (word e) (lemmatized nlp req) [])))).
    split; [|done]. by apply (record_elem_of nlp set_iter set_iter_perm).
  - intros r (Hwi & Hocc & Hsf & Hov)%(record_elem_of nlp set_iter set_iter_perm).
    split; [done|].
    apply total_occurrences_pos in Hocc as ([sid tokens] & Hst & Hw). simpl in Hw.
    assert (sid ∈ PyDict.keys (sparse (vocabulary_of wim) (word (word_info r))
                                 (lemmatized nlp req) [])) as Hkey.
    { apply sparse_keys_elem_of. right. split; [by apply listed_word | by exists tokens]. }
    apply get_Some_keys in Hkey as [c Hc].
    assert (0 < c) as Hpos.
    { apply get_elem_of, sparse_values_pos in Hc as [[]%elem_of_nil|?]. done. }
    split.
    + rewrite Hov. apply get_elem_of in Hc.
      assert (c ∈ PyDict.values (sparse (vocabulary_of wim) (word (word_info r))
                                   (lemmatized nlp req) [])) as Hv.
      { apply list_elem_of_fmap. by exists (sid, c). }
      apply (sum_list_with_in _ id) in Hv. unfold id in Hv at 1. lia.
    + exists sid, c. split; [|done]. apply get_elem_of.
      rewrite Hsf, zero_fill_get, Hc. apply decide_True.
      rewrite <-(lemmatized_ids nlp). apply list_elem_of_fmap. by exists (sid, tokens).
Qed.

(** C7. Empty inputs are not errors: once the word list is fetched, an
    empty segments list or an empty word list makes [process_text] return a
    response whose [word_list] is empty. *)
Theorem empty_inputs req wim :
  read_word_list (url (SegmentWordListUrl.word_list req)) = Some wim →
  SegmentWordListUrl.segments req = [] ∨ WordInfoMeta.word_list wim = [] →
  ∃ out, process_text read_word_list nlp set_iter req = Some out
         ∧ WordInfoFrequencyMeta.word_list out = [].
Proof.
  intros Hread Hempty. eexists. split; [by apply process_text_eq|].
  apply elem_of_nil_inv.
  intros r (Hwi & Hocc & _)%(record_elem_of nlp set_iter set_iter_perm).
  destruct Hempty as [Hs|Hw].
  - apply total_occurrences_pos in Hocc as (st & Hst & _).
    unfold lemmatized in Hst. rewrite Hs in Hst. by apply elem_of_nil in Hst.
  - rewrite Hw in Hwi. by apply elem_of_nil in Hwi.
Qed.

(** C10. The metadata of the response is the metadata of the fetched word
    list, unchanged. *)
Theorem metadata_passthrough req wim :
  read_word_list (url (SegmentWordListUrl.word_list req)) = Some wim →
  ∃ out, process_text read_word_list nlp set_iter req = Some out
         ∧ WordInfoFrequencyMeta.metadata out = WordInfoMeta.metadata wim.
Proof. intros Hread. eexists. split; [by apply process_text_eq | done]. Qed.

Lemma fmap_bind_list {A B C} (f : B → C) (g : A → list B) (l : list A) :
  f <$> (l ≫= g) = l ≫= (λ x, f <$> g x).
Proof.
  induction l as [|x l IH]; [done|]. by rewrite !bind_cons, fmap_app, IH.
Qed.

Lemma records_for_word wim segs k r :
  r ∈ records_for wim segs k → word (word_info r) = k.
Proof. by intros (_ & ? & _)%records_for_elem_of. Qed.

Lemma records_for_infos wim segs w :
  word_info <$> records_for wim segs w = entries_of (WordInfoMeta.word_list wim) w.
Proof.
  unfold records_for, records_of. cbn [fst snd].
  rewrite <-list_fmap_compose. apply list_fmap_id.
Qed.

Lemma entries_of_unlisted wim w :
  w ∉ vocabulary_of wim → entries_of (WordInfoMeta.word_list wim) w = [].
Proof.
  intros Hw. apply filter_none. intros e He Heq. apply Hw.
  apply elem_of_list_to_set, list_elem_of_fmap. by exists e.
Qed.

(** the words first visited in the leading segments lead the order *)
Lemma visited_split uw (segs : list (string * list string)) n :
  ∃ rest, first_seen (visited set_iter uw segs)
          = first_seen (visited set_iter uw (take n segs)) ++ rest.
Proof.
  destruct (first_seen_app (visited set_iter uw (take n segs))
              (visited set_iter uw (drop n segs))) as (rest & Hrest & _).
  exists rest. rewrite <-Hrest. unfold visited.
  by rewrite <-bind_app, take_drop.
Qed.

(** the entries behind the records, in output order *)
Lemma report_infos req wim :
  word_info <$> WordInfoFrequencyMeta.word_list (report set_iter nlp wim req)
  = first_seen (visited set_iter (vocabulary_of wim) (lemmatized nlp req))
    ≫= entries_of (WordInfoMeta.word_list wim).
Proof.
  rewrite (report_word_list nlp set_iter set_iter_perm), fmap_bind_list.
  apply list_bind_ext; [|done]. intros w. apply records_for_infos.
Qed.

(** the records of one word, in output order, are one per entry of that
    word, in word-list order *)
Lemma report_filter_word req wim w :
  0 < total_occurrences (lemmatized nlp req) w →
  word_info <$> filter (λ r, word (word_info r) = w)
                  (WordInfoFrequencyMeta.word_list (report set_iter nlp wim req))
  = entries_of (WordInfoMeta.word_list wim) w.
Proof.
  intros Hocc. rewrite (report_word_list nlp set_iter set_iter_perm).
  rewrite filter_bind_key;
    [| apply first_seen_NoDup | intros k x; apply records_for_word].
  destruct (decide (w ∈ vocabulary_of wim)) as [Hw|Hw].
  - rewrite decide_True; [apply records_for_infos|].
    apply first_seen_elem_of, (visited_elem_of set_iter set_iter_perm).
    split; [done | by apply total_occurrences_pos].
  - rewrite decide_False, entries_of_unlisted; [done..|].
    by intros [? _]%first_seen_elem_of%(visited_elem_of set_iter set_iter_perm).
Qed.

(** C4. Homograph fan-out: when a word occurs in some segment, the records
    of that word are one per word-list entry of the word, so any two
    entries sharing it both have a record; and any two records of the same
    word carry the same [segment_frequencies] and [overall_frequency],
    whatever their [wikidata_ids] and [category]. *)
Theorem homograph_fan_out req wim :
  read_word_list (url (SegmentWordListUrl.word_list req)) = Some wim →
  ∃ out, process_text read_word_list nlp set_iter req = Some out ∧
    (∀ w, 0 < total_occurrences (lemmatized nlp req) w →
       word_info <$> filter (λ r, word (word_info r) = w)
                       (WordInfoFrequencyMeta.word_list out)
       = entries_of (WordInfoMeta.word_list wim) w)
    ∧ (∀ e1 e2, e1 ∈ WordInfoMeta.word_list wim →
         e2 ∈ WordInfoMeta.word_list wim → word e1 = word e2 →
         0 < total_occurrences (lemmatized nlp req) (word e1) →
         ∃ r1 r2, r1 ∈ WordInfoFrequencyMeta.word_list out
                  ∧ r2 ∈ WordInfoFrequencyMeta.word_list out
                  ∧ word_info r1 = e1 ∧ word_info r2 = e2
                  ∧ segment_frequencies r1 = segment_frequencies r2
                  ∧ overall_frequency r1 = overall_frequency r2)
    ∧ (∀ r1 r2, r1 ∈ WordInfoFrequencyMeta.word_list out →
         r2 ∈ WordInfoFrequencyMeta.word_list out →
         word (word_info r1) = word (word_info r2) →
         segment_frequencies r1 = segment_frequencies r2
         ∧ overall_frequency r1 = overall_frequency r2).
Proof.
  intros Hread. eexists. split; [by apply process_text_eq|]. split_and!.
  - intros w Hocc. by apply report_filter_word.
  - intros e1 e2 He1 He2 Hw Hocc.
    pose (sf := sparse (vocabulary_of wim) (word e1) (lemmatized nlp req) []).
    exists (mkWordInfoFrequency e1 (zero_fill (all_ids req) sf)
              (sum_list (PyDict.values sf))),
           (mkWordInfoFrequency e2 (zero_fill (all_ids req) sf)
              (sum_list (PyDict.values sf))).
    split_and!; [| |done..].
    + by apply (record_elem_of nlp set_iter set_iter_perm).
    + apply (record_elem_of nlp set_iter set_iter_perm). simpl.
      rewrite <-Hw. done.
  - intros r1 r2 (_ & _ & Hsf1 & Hov1)%(record_elem_of nlp set_iter set_iter_perm)
             (_ & _ & Hsf2 & Hov2)%(record_elem_of nlp set_iter set_iter_perm) Hw.
    rewrite Hsf1, Hsf2, Hov1, Hov2, Hw. done.
Qed.

(** C9. Grouping keeps the word-list order: the grouping loop binds every
    listed word to its entries in word-list order; the records emitted for
    a word list these entries in that order; and the output as a whole is
    the concatenation of these groups, one per aggregated word, in the
    order in which the aggregation loop first visits the words. *)
Theorem grouping_order req wim :
  read_word_list (url (SegmentWordListUrl.word_list req)) = Some wim →
  ∃ out, process_text read_word_list nlp set_iter req = Some out ∧
    (∃ word_to_word_info,
       for_each (WordInfoMeta.word_list wim) group_body [] = Some word_to_word_info
       ∧ ∀ e, e ∈ WordInfoMeta.word_list wim →
           PyDict.get word_to_word_info (word e)
           = Some (filter (λ e', word e' = word e) (WordInfoMeta.word_list wim)))
    ∧ (∀ w, 0 < total_occurrences (lemmatized nlp req) w →
         word_info <$> filter (λ r, word (word_info r) = w)
                         (WordInfoFrequencyMeta.word_list out)
         = filter (λ e, word e = w) (WordInfoMeta.word_list wim))
    ∧ word_info <$> WordInfoFrequencyMeta.word_list out
      = first_seen (visited set_iter (vocabulary_of wim) (lemmatized nlp req))
        ≫= (λ w, filter (λ e, word e = w) (WordInfoMeta.word_list wim)).
Proof.
  intros Hread. eexists. split; [by apply process_text_eq|]. split_and!.
  - eexists. split; [apply group_loop_eq|].
    intros e He. apply group_lookup, list_elem_of_fmap. by exists e.
  - intros w Hocc. by apply report_filter_word.
  - apply report_infos.
Qed.

(** C5 (as amended). Order law: the distinct words come out in the order in
    which the aggregation loop first visits them, segment after segment; so
    when the first segment containing [u] comes before the first segment
    containing [v], every record of [u] precedes every record of [v].  The
    order of two words first seen in the same segment is the iteration
    order of the set [intersect], on which nothing is promised. *)
Theorem cross_segment_order req wim :
  read_word_list (url (SegmentWordListUrl.word_list req)) = Some wim →
  ∃ out, process_text read_word_list nlp set_iter req = Some out ∧
    word_info <$> WordInfoFrequencyMeta.word_list out
    = first_seen (visited set_iter (vocabulary_of wim) (lemmatized nlp req))
      ≫= entries_of (WordInfoMeta.word_list wim)
    ∧ ∀ u v i j,
        first_segment u (lemmatized nlp req) = Some i →
        first_segment v (lemmatized nlp req) = Some j →
        i < j →
        ∀ a b ru rv,
          WordInfoFrequencyMeta.word_list out !! a = Some ru →
          WordInfoFrequencyMeta.word_list out !! b = Some rv →
          word (word_info ru) = u → word (word_info rv) = v →
          a < b.
Proof.
  intros Hread. eexists. split; [by apply process_text_eq|].
  split; [apply report_infos|].
  intros u v i j Hu Hv Hij a b ru rv Ha Hb Hwu Hwv.
  set (segs := lemmatized nlp req) in *. set (uw := vocabulary_of wim).
  apply first_segment_Some in Hu as [(st & Hst & Hust) _].
  apply first_segment_Some in Hv as [_ Hbefore].
  assert (u ∈ uw) as Huw.
  { pose proof (list_elem_of_lookup_2 _ _ _ Ha) as Hru.
    apply (record_elem_of nlp set_iter set_iter_perm) in Hru as (Hwi & _).
    rewrite <-Hwu. by apply listed_word. }
  rewrite (report_word_list nlp set_iter set_iter_perm) in Ha, Hb. fold segs uw in Ha, Hb.
  pose proof (first_seen_NoDup (visited set_iter uw segs)) as Hnd.
  destruct (visited_split uw segs (S i)) as [rest Hsplit].
  rewrite Hsplit in Ha, Hb, Hnd. rewrite bind_app in Ha, Hb.
  apply NoDup_app in Hnd as (_ & Hdisj & _).
  assert (u ∈ first_seen (visited set_iter uw (take (S i) segs))) as Hu1.
  { apply first_seen_elem_of, (visited_elem_of set_iter set_iter_perm).
    split; [done|]. exists st. split; [|done].
    apply list_elem_of_lookup. exists i. rewrite lookup_take_lt by lia. done. }
  assert (v ∉ first_seen (visited set_iter uw (take (S i) segs))) as Hv1.
  { intros [_ (st' & Hst' & Hvst)]%first_seen_elem_of%(visited_elem_of set_iter set_iter_perm).
    apply (Hbefore st'); [|done].
    apply list_elem_of_lookup in Hst' as [k Hk].
    apply lookup_take_Some in Hk as [Hk Hlt].
    apply list_elem_of_lookup. exists k. rewrite lookup_take_lt by lia. done. }
  eapply lookup_app_before; [exact Ha | exact Hb | |].
  - intros (k & Hru & Hk)%list_elem_of_bind.
    apply records_for_word in Hru. subst k. rewrite Hwu in Hk. by apply (Hdisj u).
  - intros (k & Hrv & Hk)%list_elem_of_bind.
    apply records_for_word in Hrv. subst k. by rewrite Hwv in Hk.
Qed.

Lemma get_put_all_notin (d : list (string * list (string * nat))) sid
    (cnt : string → nat) ws w :
  w ∉ ws → PyDict.get (foldl (λ d w, put d w sid (cnt w)) d ws) w = PyDict.get d w.
Proof.
  revert d. induction ws as [|w0 ws IH]; intros d; [done|].
  rewrite not_elem_of_cons. intros [Hne Hnin]. cbn [foldl].
  rewrite IH by done. by apply get_put_ne.
Qed.

Lemma get_put_all_in (d : list (string * list (string * nat))) sid
    (cnt : string → nat) ws w :
  w ∈ ws →
  PyDict.get (foldl (λ d w, put d w sid (cnt w)) d ws) w
  = Some (PyDict.set (default [] (PyDict.get d w)) sid (cnt w)).
Proof.
  intros Hin. pose proof (get_put_all d sid cnt ws w) as Hget.
  rewrite decide_True in Hget by done. rewrite <-Hget.
  destruct (PyDict.get _ w) as [inner|] eqn:E; [done|].
  apply get_None in E. destruct E.
  rewrite keys_put_all. apply add_keys_elem_of. by right.
Qed.

(** C8. Per-segment counting: one iteration of the loop over the segments
    never raises; for every word that is in the vocabulary and among the
    segment's lemma tokens it stores, under the segment's id, the number of
    tokens equal to the word, which is positive; it leaves every other word
    untouched.  Started from the empty table, the iteration therefore
    records exactly the words that are both listed and present, each with
    its exact count, and nothing for the others; the table it yields does
    not depend on the order in which the set is iterated. *)
Theorem segment_counting (segments : list Segment) (unique_words : gset string)
    (i : nat) (seg : Segment) (tokens : list string)
    (d : list (string * list (string * nat))) :
  segments !! i = Some seg →
  (∃ d', segment_body set_iter segments unique_words d (i, tokens) = Some d'
     ∧ (∀ w, w ∈ unique_words → w ∈ tokens →
          0 < occurrences w tokens
          ∧ PyDict.get d' w
            = Some (PyDict.set (default [] (PyDict.get d w)) (segment_id seg)
                               (occurrences w tokens)))
     ∧ (∀ w, ¬ (w ∈ unique_words ∧ w ∈ tokens) → PyDict.get d' w = PyDict.get d w))
  ∧ (∃ m, segment_body set_iter segments unique_words [] (i, tokens) = Some m
       ∧ (∀ w, w ∈ PyDict.keys m ↔ w ∈ unique_words ∧ w ∈ tokens)
       ∧ (∀ w, PyDict.get m w
               = if decide (w ∈ unique_words ∧ w ∈ tokens)
                 then Some [(segment_id seg, occurrences w tokens)]
                 else None)
       ∧ (∀ w sf, PyDict.get m w = Some sf →
            sf = [(segment_id seg, length (filter (λ x, x = w) tokens))]
            ∧ 0 < length (filter (λ x, x = w) tokens))).
Proof.
  intros Hseg.
  assert (∀ d0 w, w ∈ unique_words → w ∈ tokens →
            PyDict.get (foldl (λ d w, put d w (segment_id seg) (occurrences w tokens))
                          d0 (matched set_iter unique_words tokens)) w
            = Some (PyDict.set (default [] (PyDict.get d0 w)) (segment_id seg)
                               (occurrences w tokens))) as Hin.
  { intros d0 w Hu Ht. apply get_put_all_in. by apply matched_elem_of. }
  assert (∀ d0 w, ¬ (w ∈ unique_words ∧ w ∈ tokens) →
            PyDict.get (foldl (λ d w, put d w (segment_id seg) (occurrences w tokens))
                          d0 (matched set_iter unique_words tokens)) w
            = PyDict.get d0 w) as Hout.
  { intros d0 w Hn. apply get_put_all_notin. by rewrite matched_elem_of. }
  assert (∀ w, PyDict.get
                 (foldl (λ d w, put d w (segment_id seg) (occurrences w tokens))
                    [] (matched set_iter unique_words tokens)) w
               = if decide (w ∈ unique_words ∧ w ∈ tokens)
                 then Some [(segment_id seg, occurrences w tokens)]
                 else None) as Hm.
  { intros w. case_decide as Hc; [by destruct Hc; rewrite Hin | by rewrite Hout]. }
  split.
  - eexists. split; [by apply segment_body_eq|]. split.
    + intros w Hu Ht. split; [by apply occurrences_pos | by apply Hin].
    + apply Hout.
  - eexists. split; [by apply segment_body_eq|]. split_and!.
    + intros w. rewrite <-get_Some_keys, Hm.
      case_decide as Hc; [by split | split; [by intros [? ?] | done]].
    + apply Hm.
    + intros w sf. rewrite Hm. case_decide as Hc; [|done].
      intros [= <-]. split; [done | apply occurrences_pos, Hc].
Qed.
End properties.

(** ** Two runs *)

Section two_runs.
Variable read_word_list : string → option WordInfoMeta.t.
Variable nlp : Language → string → list string.
Variables set_iter1 set_iter2 : gset string → list string.
Hypothesis set_iter1_perm : ∀ s, set_iter1 s ≡ₚ elements s.
Hypothesis set_iter2_perm : ∀ s, set_iter2 s ≡ₚ elements s.

Lemma first_seen_visited_perm uw (segs : list (string * list string)) :
  first_seen (visited set_iter1 uw segs) ≡ₚ first_seen (visited set_iter2 uw segs).
Proof.
  apply NoDup_Permutation; [apply first_seen_NoDup..|].
  intros w. rewrite !first_seen_elem_of.
  by rewrite (visited_elem_of set_iter1 set_iter1_perm),
             (visited_elem_of set_iter2 set_iter2_perm).
Qed.

(** C6 (as amended). Two runs on the same request, word list and lemma
    sequences both return, with the same metadata and the same records,
    each with the same [segment_frequencies] (key order included) and
    [overall_frequency]; the two lists of records are permutations of each
    other, and they are equal when the two runs iterate the set of matched
    words of every segment in the same order. *)
Theorem determinism_up_to_set_order (req : SegmentWordListUrl.t)
    (wim : WordInfoMeta.t) :
  read_word_list (url (SegmentWordListUrl.word_list req)) = Some wim →
  ∃ out1 out2,
    process_text read_word_list nlp set_iter1 req = Some out1
    ∧ process_text read_word_list nlp set_iter2 req = Some out2
    ∧ WordInfoFrequencyMeta.metadata out1 = WordInfoFrequencyMeta.metadata out2
    ∧ WordInfoFrequencyMeta.word_list out1 ≡ₚ WordInfoFrequencyMeta.word_list out2
    ∧ (∀ r, r ∈ WordInfoFrequencyMeta.word_list out1
            ↔ r ∈ WordInfoFrequencyMeta.word_list out2)
    ∧ ((∀ s, s ∈ SegmentWordListUrl.segments req →
          matched set_iter1 (vocabulary_of wim)
                  (nlp (SegmentWordListUrl.language req) (text s))
          = matched set_iter2 (vocabulary_of wim)
                    (nlp (SegmentWordListUrl.language req) (text s))) →
       out1 = out2).
Proof.
  intros Hread. eexists _, _.
  split; [by apply process_text_eq|]. split; [by apply process_text_eq|].
  assert (WordInfoFrequencyMeta.word_list (report set_iter1 nlp wim req)
          ≡ₚ WordInfoFrequencyMeta.word_list (report set_iter2 nlp wim req)) as Hperm.
  { rewrite (report_word_list nlp set_iter1 set_iter1_perm),
            (report_word_list nlp set_iter2 set_iter2_perm).
    by rewrite first_seen_visited_perm. }
  split_and!; [done | done | by intros r; rewrite Hperm |].
  intros Hsame.
  assert (visited set_iter1 (vocabulary_of wim) (lemmatized nlp req)
          = visited set_iter2 (vocabulary_of wim) (lemmatized nlp req)) as Hvis.
  { unfold visited, lemmatized. rewrite !list_fmap_bind.
    apply Forall_bind_ext, Forall_forall. intros s Hs. simpl. by apply Hsame. }
  unfold report. f_equal.
  rewrite (aggregate_eq set_iter1 set_iter1_perm), (aggregate_eq set_iter2 set_iter2_perm).
  by rewrite Hvis.
Qed.
End two_runs.

(** * The properties on the example inputs *)

Lemma elements_perm (s : gset string) : elements s ≡ₚ elements s.
Proof. reflexivity. Defined.

Lemma rev_elements_perm (s : gset string) : rev_elements s ≡ₚ elements s.
Proof. apply reverse_Permutation. Defined.

Lemma ex_read_ok req : ex_read (url (SegmentWordListUrl.word_list req)) = Some ex_wim.
Proof. reflexivity. Defined.

Lemma zero_fill_completeness_witness :
  NoDup (all_ids ex_req)
  ∧ ∃ out, process_text ex_read ex_nlp elements ex_req = Some out ∧
      ∀ r, r ∈ WordInfoFrequencyMeta.word_list out →
        PyDict.keys (segment_frequencies r) = ["s1"; "s2"].
Proof.
  assert (NoDup (all_ids ex_req)) as Hids by (vm_compute; repeat constructor; set_solver).
  split; [exact Hids|].
  destruct (zero_fill_completeness ex_read ex_nlp elements elements_perm
              ex_req ex_wim (ex_read_ok ex_req) Hids) as (out & Hout & Hrec).
  exists out. split; [exact Hout|]. intros r Hr. exact (proj1 (Hrec r Hr)).
Defined.

Lemma conservation_witness :
  ∃ out, process_text ex_read ex_nlp elements ex_req = Some out ∧
    ∀ r, r ∈ WordInfoFrequencyMeta.word_list out →
      overall_frequency r = sum_list (PyDict.values (segment_frequencies r)).
Proof.
  destruct (conservation ex_read ex_nlp elements elements_perm
              ex_req ex_wim (ex_read_ok ex_req)) as (out & Hout & Hrec).
  exists out. split; [exact Hout|]. intros r Hr. exact (proj1 (Hrec r Hr)).
Defined.

Lemma omission_law_witness :
  ∃ out, process_text ex_read ex_nlp elements ex_req = Some out ∧
    ∀ r, r ∈ WordInfoFrequencyMeta.word_list out → word (word_info r) ≠ "pine".
Proof.
  destruct (omission_law ex_read ex_nlp elements elements_perm
              ex_req ex_wim (ex_read_ok ex_req)) as (out & Hout & Hnone & _).
  exists out. split; [exact Hout|]. apply Hnone. reflexivity.
Defined.

Lemma homograph_fan_out_witness :
  ∃ out r1 r2, process_text ex_read ex_nlp elements ex_req = Some out
    ∧ r1 ∈ WordInfoFrequencyMeta.word_list out
    ∧ r2 ∈ WordInfoFrequencyMeta.word_list out
    ∧ word_info r1 = mkWordInfo "oak" ["Q1"] "plant"
    ∧ word_info r2 = mkWordInfo "oak" ["Q4"] "ship"
    ∧ segment_frequencies r1 = segment_frequencies r2
    ∧ overall_frequency r1 = overall_frequency r2.
Proof.
  destruct (homograph_fan_out ex_read ex_nlp elements elements_perm
              ex_req ex_wim (ex_read_ok ex_req)) as (out & Hout & _ & Hboth & _).
  destruct (Hboth (mkWordInfo "oak" ["Q1"] "plant") (mkWordInfo "oak" ["Q4"] "ship"))
    as (r1 & r2 & H).
  - apply list_elem_of_here.
  - do 3 apply list_elem_of_further. apply list_elem_of_here.
  - reflexivity.
  - apply (Nat.ltb_lt 0 2). reflexivity.
  -
    exists out, r1, r2. split; [exact Hout | exact H].
Defined.

Lemma grouping_order_witness :
  ∃ out, process_text ex_read ex_nlp elements ex_req = Some out ∧
    word_info <$> filter (λ r, word (word_info r) = "oak")
                    (WordInfoFrequencyMeta.word_list out)
    = [mkWordInfo "oak" ["Q1"] "plant"; mkWordInfo "oak" ["Q4"] "ship"].
Proof.
  destruct (grouping_order ex_read ex_nlp elements elements_perm
              ex_req ex_wim (ex_read_ok ex_req)) as (out & Hout & _ & Hgroup & _).
  exists out. split; [exact Hout|]. apply Hgroup. vm_compute. lia.
Defined.

Lemma cross_segment_order_witness :
  ∃ out, process_text ex_read ex_nlp elements ex_req = Some out ∧
    ∀ a b ru rv,
      WordInfoFrequencyMeta.word_list out !! a = Some ru →
      WordInfoFrequencyMeta.word_list out !! b = Some rv →
      word (word_info ru) = "oak" → word (word_info rv) = "birch" → a < b.
Proof.
  destruct (cross_segment_order ex_read ex_nlp elements elements_perm
              ex_req ex_wim (ex_read_ok ex_req)) as (out & Hout & _ & Horder).
  exists out. split; [exact Hout|].
  apply (Horder "oak" "birch" 0 1); [reflexivity | reflexivity | lia].
Defined.

Lemma segment_counting_witness :
  ∃ m, segment_body elements (SegmentWordListUrl.segments ex_req)
         (vocabulary_of ex_wim) [] (1, ["birch"; "and"; "oak"; "grow"]) = Some m
       ∧ ∀ w, w ∈ PyDict.keys m
              ↔ w ∈ vocabulary_of ex_wim ∧ w ∈ ["birch"; "and"; "oak"; "grow"].
Proof.
  destruct (segment_counting elements elements_perm
              (SegmentWordListUrl.segments ex_req) (vocabulary_of ex_wim) 1
              (mkSegment "birch and oak grow" "s2")
              ["birch"; "and"; "oak"; "grow"] [] eq_refl)
    as (_ & m & Hm & Hkeys & _).
  exists m. split; [exact Hm | exact Hkeys].
Defined.

Lemma empty_inputs_witness :
  ∃ out, process_text ex_read ex_nlp elements ex_req0 = Some out
         ∧ WordInfoFrequencyMeta.word_list out = [].
Proof.
  apply (empty_inputs ex_read ex_nlp elements elements_perm ex_req0 ex_wim
           (ex_read_ok ex_req0)).
  left. reflexivity.
Defined.

Lemma metadata_passthrough_witness :
  ∃ out, process_text ex_read ex_nlp elements ex_req = Some out
         ∧ WordInfoFrequencyMeta.metadata out = ex_meta.
Proof.
  apply (metadata_passthrough ex_read ex_nlp elements elements_perm ex_req ex_wim
           (ex_read_ok ex_req)).
Defined.

Lemma determinism_up_to_set_order_witness :
  ∃ out1 out2,
    process_text ex_read ex_nlp elements ex_req1 = Some out1
    ∧ process_text ex_read ex_nlp rev_elements ex_req1 = Some out2
    ∧ WordInfoFrequencyMeta.word_list out1 ≡ₚ WordInfoFrequencyMeta.word_list out2.
Proof.
  destruct (determinism_up_to_set_order ex_read ex_nlp elements rev_elements
              elements_perm rev_elements_perm ex_req1 ex_wim (ex_read_ok ex_req1))
    as (out1 & out2 & H1 & H2 & _ & Hperm & _).
  exists out1, out2. split; [exact H1|]. split; [exact H2 | exact Hperm].
Defined.

(** * Where the strong readings fail *)

(** C5, counterexample. One segment "birch oak", both words listed: the
    set [{birch, oak}] may be iterated [oak] first, and then the records of
    [oak] come out before the record of [birch], although [birch] is the
    first of the two in the token stream. *)
Lemma token_order_counterexample :
  (∀ s : gset string, elements s ≡ₚ elements s)
  ∧ ∃ out, process_text ex_read ex_nlp elements ex_req2 = Some out
           ∧ ¬ token_order_law (WordInfoFrequencyMeta.word_list out)
                               (lemmatized ex_nlp ex_req2).
Proof.
  split; [done|]. eexists. split; [vm_compute; reflexivity|].
  intros Hlaw.
  specialize (Hlaw 2 0 _ _ 0 1 eq_refl eq_refl eq_refl eq_refl). lia.
Qed.

(** C6, counterexample. On one segment "oak birch oak" the two iteration
    orders of the set [{birch, oak}] give two different responses. *)
Lemma determinism_counterexample :
  ¬ runs_agree ex_read ex_nlp ex_req1.
Proof.
  intros Hagree.
  specialize (Hagree elements rev_elements elements_perm rev_elements_perm).
  vm_compute in Hagree. discriminate Hagree.
Qed.

(** * Further properties of the loops *)

Section more_list_facts.
Context {A : Type}.

Lemma filter_ext_in (P Q : A → Prop) `{∀ x, Decision (P x)}
    `{∀ x, Decision (Q x)} (l : list A) :
  (∀ x, x ∈ l → P x ↔ Q x) → filter P l = filter Q l.
Proof.
  induction l as [|x l IH]; intros HPQ; [done|].
  assert (P x ↔ Q x) as Hx by (apply HPQ, elem_of_cons; by left).
  rewrite !filter_cons, IH by (intros y Hy; apply HPQ, elem_of_cons; by right).
  destruct (decide (P x)), (decide (Q x)); tauto.
Qed.

(** a filter on a disjunction of exclusive tests splits in two *)
Lemma filter_split (P Q R : A → Prop) `{∀ x, Decision (P x)}
    `{∀ x, Decision (Q x)} `{∀ x, Decision (R x)} (l : list A) :
  (∀ x, R x ↔ P x ∨ Q x) → (∀ x, P x → Q x → False) →
  filter R l ≡ₚ filter P l ++ filter Q l.
Proof.
  intros HR Hex. induction l as [|x l IH]; [done|].
  rewrite !filter_cons. specialize (HR x). specialize (Hex x).
  destruct (decide (P x)), (decide (Q x)), (decide (R x)); try tauto.
  - simpl. by rewrite IH.
  - by rewrite IH, Permutation_middle.
Qed.

(** grouping by distinct keys keeps every element of those keys once *)
Lemma bind_filter_perm (f : A → string) (l : list A) (ks : list string) :
  NoDup ks →
  ks ≫= (λ k, filter (λ e, f e = k) l) ≡ₚ filter (λ e, f e ∈ ks) l.
Proof.
  induction ks as [|k ks IH]; intros Hnd.
  - rewrite filter_none; [done|]. intros x _ Hx. by apply elem_of_nil in Hx.
  - apply NoDup_cons in Hnd as [Hk Hnd]. rewrite bind_cons, IH by done.
    symmetry. apply filter_split.
    + intros x. rewrite elem_of_cons. done.
    + intros x <- Hin. done.
Qed.
End more_list_facts.

Section more_count_facts.
Implicit Types (sf : list (string * nat)) (w sid : string).
Implicit Types (segs : list (string * list string)) (uw : gset string).

Lemma sum_set_le sf k c :
  sum_list (PyDict.values (PyDict.set sf k c)) ≤ sum_list (PyDict.values sf) + c.
Proof.
  unfold PyDict.values. induction sf as [|[k0 c0] sf IH].
  - simpl. unfold id. lia.
  - cbn [PyDict.set]. destruct (decide (k0 = k)).
    + rewrite !fmap_cons. cbn [sum_list_with snd]. unfold id at 1. lia.
    + rewrite !fmap_cons. cbn [sum_list_with snd]. unfold id at 1 3. lia.
Qed.

Lemma sparse_app uw w segs1 segs2 sf :
  sparse uw w (segs1 ++ segs2) sf = sparse uw w segs2 (sparse uw w segs1 sf).
Proof. unfold sparse. apply foldl_app. Qed.

(** segments that do not contain the word leave the entry of their id alone *)
Lemma sparse_get_unmatched uw w segs sf sid :
  (∀ tokens, (sid, tokens) ∈ segs → ¬ (w ∈ uw ∧ w ∈ tokens)) →
  PyDict.get (sparse uw w segs sf) sid = PyDict.get sf sid.
Proof.
  revert sf. induction segs as [|[sid0 tokens0] segs IH]; intros sf Hun; [done|].
  rewrite sparse_cons, IH by (intros t Ht; apply Hun, elem_of_cons; by right).
  destruct (decide (w ∈ uw ∧ w ∈ tokens0)) as [Hc|]; [|done].
  apply get_set_ne. intros ->. apply (Hun tokens0); [apply elem_of_cons; by left | done].
Qed.

(** the last segment of an id that contains the word decides the entry *)
Lemma sparse_get_last uw w segs1 sid tokens segs2 sf :
  w ∈ uw → w ∈ tokens →
  (∀ tokens', (sid, tokens') ∈ segs2 → w ∉ tokens') →
  PyDict.get (sparse uw w (segs1 ++ (sid, tokens) :: segs2) sf) sid
  = Some (occurrences w tokens).
Proof.
  intros Hu Ht Hlater. rewrite sparse_app, sparse_cons.
  rewrite sparse_get_unmatched by (intros t Hin [_ ?]; by apply (Hlater t)).
  rewrite decide_True by done. apply get_set_eq.
Qed.

Lemma sparse_sum_le uw w segs sf :
  sum_list (PyDict.values (sparse uw w segs sf))
  ≤ sum_list (PyDict.values sf) + total_occurrences segs w.
Proof.
  unfold total_occurrences. revert sf.
  induction segs as [|[sid tokens] segs IH]; intros sf; [simpl; lia|].
  rewrite sparse_cons. cbn [sum_list_with snd]. etrans; [apply IH|].
  destruct (decide (w ∈ uw ∧ w ∈ tokens)); [|lia].
  pose proof (sum_set_le sf sid (occurrences w tokens)). lia.
Qed.

(** every recorded count is the count of a segment of that id *)
Lemma sparse_values_origin uw w segs sf k c :
  (k, c) ∈ sparse uw w segs sf →
  (k, c) ∈ sf ∨ ∃ tokens, (k, tokens) ∈ segs ∧ w ∈ tokens ∧ c = occurrences w tokens.
Proof.
  revert sf. induction segs as [|[sid tokens] segs IH]; intros sf; [by left|].
  rewrite sparse_cons. intros [Hin|(t & ? & ? & ?)]%IH.
  - destruct (decide (w ∈ uw ∧ w ∈ tokens)) as [[_ Ht]|]; [|by left].
    apply elem_of_set in Hin as [?|[-> ->]]; [by left|].
    right. exists tokens. split; [apply elem_of_cons; by left | done].
  - right. exists t. split; [apply elem_of_cons; by right | done].
Qed.
End more_count_facts.

Section more_group_facts.
Implicit Types (g : list (string * list WordInfo)) (wl : list WordInfo).

Lemma keys_group wl g :
  PyDict.keys (foldl group_put g wl) = foldl add_key (PyDict.keys g) (word <$> wl).
Proof.
  revert g. induction wl as [|e wl IH]; intros g; [done|].
  rewrite fmap_cons. cbn [foldl]. rewrite IH. unfold group_put. by rewrite keys_set.
Qed.

(** the grouping in closed form *)
Lemma group_eq wl :
  foldl group_put [] wl
  = (λ w, (w, entries_of wl w)) <$> first_seen (word <$> wl).
Proof.
  pose proof (keys_group wl []) as Hk.
  change (foldl add_key (PyDict.keys []) ?l) with (first_seen l) in Hk.
  rewrite <-Hk. unfold PyDict.keys. rewrite <-list_fmap_compose.
  rewrite <-(list_fmap_id (foldl group_put [] wl)) at 1.
  apply list_fmap_ext. intros i [w l] Hi. simpl.
  apply list_elem_of_lookup_2 in Hi.
  assert (w ∈ word <$> wl) as Hw.
  { apply first_seen_elem_of. rewrite <-Hk.
    apply list_elem_of_fmap. by exists (w, l). }
  apply elem_of_get in Hi.
  - rewrite group_lookup in Hi by done. congruence.
  - rewrite keys_group. apply first_seen_NoDup.
Qed.
End more_group_facts.

(** X2. The zero-filled dict of lines 151-156, for any id list (repeated ids
    included) and any recorded counts: its keys are the distinct ids in
    order of first appearance; an id of the list is bound to its recorded
    count, or to 0 when none is recorded; any other key is missing, even
    one that has a recorded count. *)
Theorem zero_fill_lookup (all_segment_ids : list string)
    (segment_frq : list (string * nat)) :
  PyDict.keys (zero_fill all_segment_ids segment_frq) = first_seen all_segment_ids
  ∧ NoDup (PyDict.keys (zero_fill all_segment_ids segment_frq))
  ∧ ∀ k, PyDict.get (zero_fill all_segment_ids segment_frq) k
         = if decide (k ∈ all_segment_ids)
           then Some (default 0 (PyDict.get segment_frq k))
           else None.
Proof.
  split_and!.
  - apply zero_fill_keys.
  - rewrite zero_fill_keys. apply first_seen_NoDup.
  - apply zero_fill_get.
Qed.

(** X6. The grouping loop of lines 116-119 never raises and loses nothing:
    the keys of [word_to_word_info] are the distinct words in order of first
    appearance in the word list, no key is bound to an empty list, every key
    is bound to the entries of that word in word-list order, and the groups
    put end to end are a permutation of the word list. *)
Theorem grouping_partition (word_list : list WordInfo) :
  ∃ word_to_word_info,
    for_each word_list group_body [] = Some word_to_word_info
    ∧ PyDict.keys word_to_word_info = first_seen (word <$> word_list)
    ∧ (∀ w l, (w, l) ∈ word_to_word_info →
         l ≠ [] ∧ l = filter (λ e, word e = w) word_list)
    ∧ word_to_word_info ≫= snd ≡ₚ word_list.
Proof.
  eexists. split; [apply group_loop_eq|]. rewrite group_eq. split_and!.
  - unfold PyDict.keys. rewrite <-list_fmap_compose. apply list_fmap_id.
  - intros w l (w' & [= -> ->] & Hw)%list_elem_of_fmap. split; [|done].
    apply first_seen_elem_of, list_elem_of_fmap in Hw as (e & -> & He).
    intros Hnil. assert (e ∈ entries_of word_list (word e)) as Hin
      by by apply list_elem_of_filter.
    rewrite Hnil in Hin. by apply elem_of_nil in Hin.
  - rewrite list_fmap_bind. unfold compose. simpl. unfold entries_of.
    rewrite bind_filter_perm by apply first_seen_NoDup.
    rewrite filter_all; [done|]. intros e He.
    apply first_seen_elem_of, list_elem_of_fmap. by exists e.
Qed.

Section more_properties.
Variable read_word_list : string → option WordInfoMeta.t.
Variable nlp : Language → string → list string.
Variable set_iter : gset string → list string.
Hypothesis set_iter_perm : ∀ s, set_iter s ≡ₚ elements s.
Implicit Types (req : SegmentWordListUrl.t) (wim : WordInfoMeta.t).
Implicit Types (r : WordInfoFrequency) (w : string).


(** X3. Repeated segment ids: the count a record shows for an id is the
    count of the last segment of that id that contains the word (a later
    segment of the same id without the word does not reset it), and 0 when
    no segment of that id contains the word. *)
Theorem duplicate_ids_last_match_wins req wim before s after :
  read_word_list (url (SegmentWordListUrl.word_list req)) = Some wim →
  SegmentWordListUrl.segments req = before ++ s :: after →
  ∃ out, process_text read_word_list nlp set_iter req = Some out ∧
    ∀ r, r ∈ WordInfoFrequencyMeta.word_list out →
      (word (word_info r) ∈ nlp (SegmentWordListUrl.language req) (text s) →
       (∀ s', s' ∈ after → segment_id s' = segment_id s →
          word (word_info r) ∉ nlp (SegmentWordListUrl.language req) (text s')) →
       PyDict.get (segment_frequencies r) (segment_id s)
       = Some (occurrences (word (word_info r))
                 (nlp (SegmentWordListUrl.language req) (text s))))
      ∧ ((∀ s', s' ∈ SegmentWordListUrl.segments req →
            segment_id s' = segment_id s →
            word (word_info r) ∉ nlp (SegmentWordListUrl.language req) (text s')) →
         PyDict.get (segment_frequencies r) (segment_id s) = Some 0).
Proof.
  intros Hread Hsegs. eexists. split; [by apply process_text_eq|].
  intros r (Hwi & _ & Hsf & _)%(record_elem_of nlp set_iter set_iter_perm).
  assert (segment_id s ∈ all_ids req) as Hid.
  { unfold all_ids. rewrite Hsegs. apply list_elem_of_fmap. exists s.
    split; [done|]. apply elem_of_app. right. apply elem_of_cons; by left. }
  rewrite Hsf, zero_fill_get, decide_True by done. split.
  - intros Hw Hlater. f_equal. unfold lemmatized. rewrite Hsegs, fmap_app, fmap_cons.
    rewrite sparse_get_last; [done | by apply listed_word | done |].
    intros tokens' (s' & [= Hs' ->] & Hin)%list_elem_of_fmap.
    by apply Hlater.
  - intros Hnone. rewrite sparse_get_unmatched; [done|].
    intros tokens (s' & [= Hs' ->] & Hin)%list_elem_of_fmap [_ Hw].
    by apply (Hnone s').
Qed.

(** X4. Whatever the segment ids, the [overall_frequency] of a record never
    exceeds the number of occurrences of its word over all segments, and no
    per-segment count of the record exceeds its [overall_frequency]. *)
Theorem overall_frequency_bounds req wim :
  read_word_list (url (SegmentWordListUrl.word_list req)) = Some wim →
  ∃ out, process_text read_word_list nlp set_iter req = Some out ∧
    ∀ r, r ∈ WordInfoFrequencyMeta.word_list out →
      overall_frequency r
      ≤ total_occurrences (lemmatized nlp req) (word (word_info r))
      ∧ ∀ sid c, (sid, c) ∈ segment_frequencies r → c ≤ overall_frequency r.
Proof.
  intros Hread. eexists. split; [by apply process_text_eq|].
  intros r (Hwi & _ & Hsf & Hov)%(record_elem_of nlp set_iter set_iter_perm).
  split.
  - rewrite Hov. etrans; [apply sparse_sum_le|]. simpl. lia.
  - intros sid c Hin.
    assert (overall_frequency r = sum_list (PyDict.values (segment_frequencies r)))
      as ->.
    { rewrite Hov, Hsf. symmetry. apply zero_fill_sum.
      - apply sparse_keys_NoDup, NoDup_nil_2.
      - intros k Hk%sparse_keys_ids. by rewrite lemmatized_ids in Hk. }
    assert (c ∈ PyDict.values (segment_frequencies r)) as Hc
      by (apply list_elem_of_fmap; by exists (sid, c)).
    apply (sum_list_with_in _ id) in Hc. by unfold id in Hc at 1.
Qed.

(** X5. The records are, up to order, exactly the word-list entries whose
    word occurs in some segment, each as often as the word list holds it;
    so the number of records is the number of such entries. *)
Theorem records_are_matched_entries req wim :
  read_word_list (url (SegmentWordListUrl.word_list req)) = Some wim →
  ∃ out, process_text read_word_list nlp set_iter req = Some out ∧
    word_info <$> WordInfoFrequencyMeta.word_list out
    ≡ₚ filter (λ e, 0 < total_occurrences (lemmatized nlp req) (word e))
              (WordInfoMeta.word_list wim)
    ∧ length (WordInfoFrequencyMeta.word_list out)
      = length (filter (λ e, 0 < total_occurrences (lemmatized nlp req) (word e))
                       (WordInfoMeta.word_list wim)).
Proof.
  intros Hread. eexists. split; [by apply process_text_eq|].
  assert (word_info <$> WordInfoFrequencyMeta.word_list (report set_iter nlp wim req)
          ≡ₚ filter (λ e, 0 < total_occurrences (lemmatized nlp req) (word e))
                    (WordInfoMeta.word_list wim)) as Hperm.
  { rewrite (report_infos nlp set_iter set_iter_perm). unfold entries_of.
    rewrite bind_filter_perm by apply first_seen_NoDup.
    erewrite filter_ext_in; [done|]. intros e He. simpl.
    rewrite first_seen_elem_of, (visited_elem_of set_iter set_iter_perm).
    rewrite total_occurrences_pos. split; [by intros [_ ?]|]. intros Hocc.
    split; [|done]. apply elem_of_list_to_set, list_elem_of_fmap. by exists e. }
  split; [done|]. by rewrite <-Hperm, length_fmap.
Qed.

(** X7. Invariant of the aggregation loop of lines 125-146: it never raises;
    the words of the table are distinct and are exactly the listed words
    that occur in some segment; the sub-dict of a word is never empty, its
    keys are distinct segment ids of the request, and each of its counts is
    the positive number of occurrences of the word in a segment of that id
    (no zero is ever stored). *)
Theorem aggregated_table_invariant (segments : list Segment)
    (unique_words : gset string) (lemmas : Segment → list string) :
  ∃ word_to_segment_frq,
    for_each (enumerate (lemmas <$> segments))
             (segment_body set_iter segments unique_words) []
    = Some word_to_segment_frq
    ∧ NoDup (PyDict.keys word_to_segment_frq)
    ∧ (∀ w, w ∈ PyDict.keys word_to_segment_frq
            ↔ w ∈ unique_words ∧ ∃ s, s ∈ segments ∧ w ∈ lemmas s)
    ∧ ∀ w segment_frq, (w, segment_frq) ∈ word_to_segment_frq →
        segment_frq ≠ []
        ∧ NoDup (PyDict.keys segment_frq)
        ∧ ∀ sid c, (sid, c) ∈ segment_frq →
            0 < c ∧ ∃ s, s ∈ segments ∧ segment_id s = sid
                         ∧ w ∈ lemmas s ∧ c = occurrences w (lemmas s).
Proof.
  eexists. split; [apply segments_loop_eq|].
  set (segs := (λ s, (segment_id s, lemmas s)) <$> segments).
  split_and!.
  - by apply aggregate_keys_NoDup.
  - intros w. rewrite (aggregate_keys_elem_of set_iter set_iter_perm). split.
    + intros [Hu (st & (s & -> & Hs)%list_elem_of_fmap & Hw)]. eauto.
    + intros [Hu (s & Hs & Hw)]. split; [done|].
      exists (segment_id s, lemmas s). split; [|done].
      apply list_elem_of_fmap. by exists s.
  - intros w sf (-> & Hu & st & Hst & Hw)%(aggregate_item set_iter set_iter_perm).
    split_and!.
    + intros Hnil. assert (st.1 ∈ PyDict.keys (sparse unique_words w segs [])) as Hk.
      { apply sparse_keys_elem_of. right. split; [done|]. exists st.2. by destruct st. }
      rewrite Hnil in Hk. by apply elem_of_nil in Hk.
    + apply sparse_keys_NoDup, NoDup_nil_2.
    + intros sid c Hin. split.
      * by apply sparse_values_pos in Hin as [[]%elem_of_nil|?].
      * apply sparse_values_origin in Hin
          as [[]%elem_of_nil|(t & (s & [= -> ->] & Hs)%list_elem_of_fmap & Ht & ->)].
        by exists s.
Qed.


(** X9. A segment none of whose lemma tokens is a listed word (an empty
    token sequence in particular) leaves the table as it is; this iteration
    does not even read [segments[i]]. *)
Theorem unmatched_segment_noop (segments : list Segment)
    (unique_words : gset string) (i : nat) (tokens : list string)
    (d : list (string * list (string * nat))) :
  (∀ w, w ∈ tokens → w ∉ unique_words) →
  segment_body set_iter segments unique_words d (i, tokens) = Some d.
Proof.
  intros Hnone. unfold segment_body.
  fold (matched set_iter unique_words tokens).
  destruct (matched set_iter unique_words tokens) as [|w ws] eqn:E; [done|].
  assert (w ∈ matched set_iter unique_words tokens) as Hw
    by (rewrite E; apply elem_of_cons; by left).
  apply (matched_elem_of set_iter set_iter_perm) in Hw as [Hu Ht].
  by destruct (Hnone w Ht).
Qed.
End more_properties.


(** X11. Recording one word of segment [i] (lines 141-146): the step raises
    exactly when [i] is not an index of [segments]; otherwise the entry of
    the word under the id of segment [i] becomes [counted[w]], the other
    ids of the word and all other words keep what they had. *)
Theorem save_body_bounds (segments : list Segment) (i : nat)
    (counted : list (string * nat))
    (d : list (string * list (string * nat))) (w : string) :
  (save_body segments i counted d w = None ↔ length segments ≤ i)
  ∧ ∀ d', save_body segments i counted d w = Some d' →
      (∀ w', w' ≠ w → PyDict.get d' w' = PyDict.get d w')
      ∧ ∃ seg inner,
          segments !! i = Some seg
          ∧ PyDict.get d' w = Some inner
          ∧ PyDict.get inner (segment_id seg) = Some (counter_get counted w)
          ∧ ∀ sid, sid ≠ segment_id seg →
              PyDict.get inner sid = PyDict.get (default [] (PyDict.get d w)) sid.
Proof.
  destruct (segments !! i) as [seg|] eqn:Hseg.
  - rewrite (put_eq segments i seg) by done. split.
    + split; [done|]. intros Hle. apply lookup_lt_Some in Hseg. lia.
    + intros d' [= <-]. split.
      * intros w' Hne. by apply get_set_ne.
      * exists seg, (PyDict.set (default [] (PyDict.get d w)) (segment_id seg)
                       (counter_get counted w)).
        split_and!; [done | apply get_set_eq | apply get_set_eq |].
        intros sid Hne. by apply get_set_ne.
  - assert (save_body segments i counted d w = None) as ->.
    { unfold save_body, PyDict.contains.
      destruct (PyDict.get d w) as [inner|] eqn:E; simpl.
      - by rewrite E, Hseg.
      - by rewrite get_set_eq, Hseg. }
    split; [|done]. split; [|done]. intros _. by apply lookup_ge_None.
Qed.

(** * The further properties on the example inputs *)


Lemma duplicate_ids_last_match_wins_witness :
  ∃ out, process_text ex_read ex_nlp elements ex_req_dup = Some out ∧
    ∀ r, r ∈ WordInfoFrequencyMeta.word_list out →
      word (word_info r) = "oak" →
      PyDict.get (segment_frequencies r) "s1" = Some 1.
Proof.
  destruct (duplicate_ids_last_match_wins ex_read ex_nlp elements elements_perm
              ex_req_dup ex_wim [mkSegment "oak oak" "s1"] (mkSegment "oak" "s1")
              [mkSegment "birch" "s1"] (ex_read_ok ex_req_dup) eq_refl)
    as (out & Hout & Hrec).
  exists out. split; [exact Hout|]. intros r Hr Hw.
  destruct (Hrec r Hr) as [Hlast _]. rewrite Hw in Hlast. apply Hlast.
  - apply list_elem_of_here.
  - intros s' ->%list_elem_of_singleton _ Hin.
    apply list_elem_of_singleton in Hin. discriminate Hin.
Defined.

Lemma overall_frequency_bounds_witness :
  ∃ out, process_text ex_read ex_nlp elements ex_req_dup = Some out ∧
    ∀ r, r ∈ WordInfoFrequencyMeta.word_list out →
      overall_frequency r
      ≤ total_occurrences (lemmatized ex_nlp ex_req_dup) (word (word_info r)).
Proof.
  destruct (overall_frequency_bounds ex_read ex_nlp elements elements_perm
              ex_req_dup ex_wim (ex_read_ok ex_req_dup)) as (out & Hout & Hrec).
  exists out. split; [exact Hout|]. intros r Hr. exact (proj1 (Hrec r Hr)).
Defined.

Lemma records_are_matched_entries_witness :
  ∃ out, process_text ex_read ex_nlp elements ex_req = Some out
         ∧ length (WordInfoFrequencyMeta.word_list out) = 3.
Proof.
  destruct (records_are_matched_entries ex_read ex_nlp elements elements_perm
              ex_req ex_wim (ex_read_ok ex_req)) as (out & Hout & _ & Hlen).
  exists out. split; [exact Hout | exact Hlen].
Defined.

Lemma aggregated_table_invariant_witness :
  ∃ tbl,
    for_each (enumerate (ex_nlp EN ∘ text <$> SegmentWordListUrl.segments ex_req))
             (segment_body elements (SegmentWordListUrl.segments ex_req)
                           (vocabulary_of ex_wim)) []
    = Some tbl
    ∧ NoDup (PyDict.keys tbl).
Proof.
  destruct (aggregated_table_invariant elements elements_perm
              (SegmentWordListUrl.segments ex_req) (vocabulary_of ex_wim)
              (ex_nlp EN ∘ text)) as (tbl & Htbl & Hnd & _).
  exists tbl. split; [exact Htbl | exact Hnd].
Defined.


Lemma unmatched_segment_noop_witness :
  segment_body elements (SegmentWordListUrl.segments ex_req)
               (vocabulary_of ex_wim) [("oak", [("s1", 1)])] (7, ["and"; "grow"])
  = Some [("oak", [("s1", 1)])].
Proof.
  apply (unmatched_segment_noop elements elements_perm).
  intros w Hw Hu.
  apply elem_of_list_to_set in Hu.
  apply elem_of_cons in Hw as [->|Hw].
  - vm_compute in Hu. by repeat (apply elem_of_cons in Hu as [Hu|Hu]; [discriminate Hu|]); apply elem_of_nil in Hu.
  - apply list_elem_of_singleton in Hw as ->.
    vm_compute in Hu. by repeat (apply elem_of_cons in Hu as [Hu|Hu]; [discriminate Hu|]); apply elem_of_nil in Hu.
Defined.
